(** * A shallow embedding of the [myls] directory lister

    The development follows [ls_Functions.c] and [myls.c]: the comparators
    handed to [qsort], the two listing routines [do_ls] and
    [list_directory_long_format], the renderers and the long-format
    formatter.  The operating system (directory enumeration, [stat],
    [lstat], [readlink], the user and group databases, the clock
    formatting) is an explicit record of oracles; the process is an
    explicit state holding what was written to the two output streams and
    how many directory handles are open. *)

From Stdlib Require Import ZArith List String Ascii Bool Lia.
From Stdlib Require Import Permutation Sorted DecimalString.
Import ListNotations.

Local Open Scope string_scope.
Local Open Scope Z_scope.

(** ** C strings *)

Module CString.

(** A byte read as [unsigned char]. *)
Definition uchar (c : ascii) : Z := Z.of_N (N_of_ascii c).

(** [strcmp]: the difference of the first pair of bytes that differ, read as
    unsigned bytes; the terminating NUL ends the comparison. *)
Fixpoint strcmp (s1 s2 : string) : Z :=
  match s1, s2 with
  | EmptyString, EmptyString => 0
  | EmptyString, String c2 _ => 0 - uchar c2
  | String c1 _, EmptyString => uchar c1
  | String c1 r1, String c2 r2 =>
      if Ascii.eqb c1 c2
      then (if Ascii.eqb c1 zero then 0 else strcmp r1 r2)
      else uchar c1 - uchar c2
  end.

(** [tolower] in the "C" locale (the program only ever sets [LC_TIME]). *)
Definition tolower (c : ascii) : ascii :=
  if (65 <=? uchar c) && (uchar c <=? 90)
  then ascii_of_N (N_of_ascii c + 32)
  else c.

(** The loop [for (i = 0; buf[i]; i++) buf[i] = tolower(buf[i])] run on a
    copy of the name. *)
Fixpoint lower_copy (s : string) : string :=
  match s with
  | EmptyString => EmptyString
  | String c r => String (tolower c) (lower_copy r)
  end.

(** First byte of a name, [d_name[0]]; the empty string shows its NUL. *)
Definition first_char (s : string) : ascii :=
  match s with
  | EmptyString => zero
  | String c _ => c
  end.

(** What [snprintf(buf, size, ...)] leaves in [buf]: at most [size - 1]
    bytes of the formatted text. *)
Fixpoint take (n : nat) (s : string) : string :=
  match n, s with
  | O, _ => EmptyString
  | S _, EmptyString => EmptyString
  | S k, String c r => String c (take k r)
  end.

Definition snprintf (size : nat) (s : string) : string := take (size - 1) s.

(** [%ld] *)
Definition dec (z : Z) : string := NilZero.string_of_int (Z.to_int z).

Fixpoint spaces (n : nat) : string :=
  match n with
  | O => EmptyString
  | S k => String " "%char (spaces k)
  end.

(** [%Ns]: right-justified in a field of [n]. *)
Definition pad_left (n : nat) (s : string) : string :=
  spaces (n - String.length s) ++ s.

(** [%-Ns]: left-justified in a field of [n]. *)
Definition pad_right (n : nat) (s : string) : string :=
  s ++ spaces (n - String.length s).

Definition ESC : string := String (ascii_of_nat 27) EmptyString.
Definition NL : string := String (ascii_of_nat 10) EmptyString.

End CString.
Import CString.

(** ** File metadata *)

Record stat_t := mk_stat {
  st_mode : Z;
  st_ino : Z;
  st_nlink : Z;
  st_uid : Z;
  st_gid : Z;
  st_size : Z;
  st_atime : Z;
  st_mtime : Z;
  st_ctime : Z
}.

(** The mode constants of [<sys/stat.h>] (octal in the header). *)
Module Mode.
Definition S_IFMT : Z := 61440.   (* 0170000 *)
Definition S_IFSOCK : Z := 49152. (* 0140000 *)
Definition S_IFLNK : Z := 40960.  (* 0120000 *)
Definition S_IFREG : Z := 32768.  (* 0100000 *)
Definition S_IFBLK : Z := 24576.  (* 0060000 *)
Definition S_IFDIR : Z := 16384.  (* 0040000 *)
Definition S_IFCHR : Z := 8192.   (* 0020000 *)
Definition S_IFIFO : Z := 4096.   (* 0010000 *)
Definition S_ISUID : Z := 2048.   (* 04000 *)
Definition S_ISGID : Z := 1024.   (* 02000 *)
Definition S_ISVTX : Z := 512.    (* 01000 *)
Definition S_IRUSR : Z := 256.    (* 0400 *)
Definition S_IWUSR : Z := 128.    (* 0200 *)
Definition S_IXUSR : Z := 64.     (* 0100 *)
Definition S_IRGRP : Z := 32.     (* 040 *)
Definition S_IWGRP : Z := 16.     (* 020 *)
Definition S_IXGRP : Z := 8.      (* 010 *)
Definition S_IROTH : Z := 4.      (* 04 *)
Definition S_IWOTH : Z := 2.      (* 02 *)
Definition S_IXOTH : Z := 1.      (* 01 *)

(** [mode & bit], read as a C condition. *)
Definition has (mode bit : Z) : bool := negb (Z.land mode bit =? 0).

Definition is_type (mode ty : Z) : bool := Z.land mode S_IFMT =? ty.
Definition S_ISREG m := is_type m S_IFREG.
Definition S_ISDIR m := is_type m S_IFDIR.
Definition S_ISBLK m := is_type m S_IFBLK.
Definition S_ISCHR m := is_type m S_IFCHR.
Definition S_ISLNK m := is_type m S_IFLNK.
Definition S_ISFIFO m := is_type m S_IFIFO.
Definition S_ISSOCK m := is_type m S_IFSOCK.
End Mode.
Import Mode.

(** ** The operating system, as seen by the process

    Every oracle is keyed by the path string exactly as the program passes
    it: a relative path is resolved by the system against the working
    directory of the process. *)

Record OS := mk_OS {
  (** [opendir] followed by [readdir] until NULL: the [d_name]s in the
      order the file system yields them; [None] when [opendir] fails. *)
  os_opendir : string -> option (list string);
  os_stat : string -> option stat_t;
  os_lstat : string -> option stat_t;
  os_readlink : string -> option string;
  os_getpwuid : Z -> option string;
  os_getgrgid : Z -> option string;
  (** [localtime] then [strftime "%A %d %H:%M"] under the locale in force:
      [None] when [localtime] fails, the empty text when [strftime]
      returns 0. *)
  os_localtime_fmt : Z -> option string;
  (** [basename]: the name it returns.  On a path that ends in a slash
      [basename] also cuts that slash off in place; the renderers are
      followed on paths that do not end in one, which it leaves as they
      are. *)
  os_basename : string -> string
}.

(** ** The global option flags of [myls.c] (each a [uint8_t] holding 0 or 1) *)

Record Flags := mk_Flags {
  is_long_format_enabled : bool;
  is_no_option_enabled : bool;
  is_hidden_files_enabled : bool;
  is_sort_by_time_enabled : bool;
  is_sort_by_access_time_enabled : bool;
  is_directory_option_enabled : bool;
  is_ctime_option_enabled : bool;
  is_no_sort_enabled : bool;
  is_inode_enabled : bool;
  is_column_output_enabled : bool
}.

Definition no_flags : Flags :=
  mk_Flags false false false false false false false false false false.

(** ** Comparators

    A comparator returns its [int] together with the diagnostics it wrote
    with [perror]. *)

Definition cmp_fn := string -> string -> Z * list string.

Definition compare_by_ctime (os : OS) : cmp_fn := fun file_path1 file_path2 =>
  match os_stat os file_path1 with
  | None => (1, ["stat failed for file_path1"])
  | Some file_stat1 =>
      match os_stat os file_path2 with
      | None => (-1, ["stat failed for file_path2"])
      | Some file_stat2 =>
          if st_ctime file_stat1 >? st_ctime file_stat2 then (-1, [])
          else if st_ctime file_stat1 <? st_ctime file_stat2 then (1, [])
          else (0, [])
      end
  end.

Definition compare_by_access_time (os : OS) : cmp_fn := fun a b =>
  match os_stat os a with
  | None => (1, ["stat failed for file_stat1"])
  | Some file_stat1 =>
      match os_stat os b with
      | None => (-1, ["stat failed for file_stat2"])
      | Some file_stat2 =>
          if st_atime file_stat1 <? st_atime file_stat2 then (1, [])
          else if st_atime file_stat1 >? st_atime file_stat2 then (-1, [])
          else (strcmp a b, [])
      end
  end.

Definition compare_case_insensitive : cmp_fn := fun file_name1 file_name2 =>
  (strcmp (lower_copy file_name1) (lower_copy file_name2), []).

Definition compare_with_hidden : cmp_fn := fun file_name1 file_name2 =>
  if strcmp file_name1 "." =? 0 then (-1, [])
  else if strcmp file_name1 ".." =? 0 then (-1, [])
  else if strcmp file_name2 "." =? 0 then (1, [])
  else if strcmp file_name2 ".." =? 0 then (1, [])
  else (strcmp file_name1 file_name2, []).

Definition compare : cmp_fn := fun a b => (strcmp a b, []).

(** ** [qsort]

    The C library's [qsort] is driven only by the sign of the comparator.
    It is modelled as a stable insertion sort that collects the
    comparator's diagnostics in call order; the comparator is always
    called with the entry that stood earlier in the array first.  How
    often the comparator is called, and so how many diagnostics it leaves,
    is particular to this sort. *)

Fixpoint qsort_insert (cmp : cmp_fn) (x : string) (l : list string)
  : list string * list string :=
  match l with
  | [] => ([x], [])
  | y :: r =>
      let (c, e) := cmp x y in
      if c <=? 0 then (x :: y :: r, e)
      else let (r', e') := qsort_insert cmp x r in (y :: r', (e ++ e')%list)
  end.

Fixpoint qsort (cmp : cmp_fn) (l : list string) : list string * list string :=
  match l with
  | [] => ([], [])
  | x :: r =>
      let (r', e) := qsort cmp r in
      let (l', e') := qsort_insert cmp x r' in
      (l', (e ++ e')%list)
  end.

(** ** Option parsing: the [switch] of [main]

    [getopt] hands the option letters over one at a time.  Case ['t'] falls
    through into case ['u'], and case ['d'] into case ['c'].  Only the
    flags are followed here; the usage line of case ['?'] is left out. *)

Definition set_option (opt : ascii) (f : Flags) : Flags :=
  let '(mk_Flags lng _ hid tim acc dir ctm nos ino col) := f in
  let nop := true in
  match opt with
  | "l"%char => mk_Flags true nop hid tim acc dir ctm nos ino col
  | "a"%char => mk_Flags lng nop true tim acc dir ctm nos ino col
  | "t"%char => mk_Flags lng nop hid true true dir ctm nos ino col
  | "u"%char => mk_Flags lng nop hid tim true dir ctm nos ino col
  | "d"%char => mk_Flags lng nop hid tim acc true true nos ino col
  | "c"%char => mk_Flags lng nop hid tim acc dir true nos ino col
  | "f"%char => mk_Flags lng nop hid tim acc dir ctm true ino col
  | "i"%char => mk_Flags lng nop hid tim acc dir ctm nos true col
  | "1"%char => mk_Flags lng nop hid tim acc dir ctm nos ino true
  | _ => mk_Flags lng nop hid tim acc dir ctm nos ino col
  end.

Definition parse_options (opts : list ascii) : Flags :=
  fold_left (fun f opt => set_option opt f) opts no_flags.

(** ** The process state *)

Record Proc := mk_Proc {
  p_stdout : string;          (* everything written to standard output *)
  p_stderr : list string;     (* the diagnostics, one per [perror]/[fprintf] *)
  p_open_dirs : nat           (* directory handles opened and not yet closed *)
}.

Definition proc0 : Proc := mk_Proc "" [] 0.

Definition printf (s : string) (p : Proc) : Proc :=
  mk_Proc (p_stdout p ++ s) (p_stderr p) (p_open_dirs p).

Definition perror (msg : string) (p : Proc) : Proc :=
  mk_Proc (p_stdout p) (p_stderr p ++ [msg])%list (p_open_dirs p).

(** [fprintf(stderr, ...)] of one line. *)
Definition fprintf_stderr (line : string) (p : Proc) : Proc :=
  mk_Proc (p_stdout p) (p_stderr p ++ [line])%list (p_open_dirs p).

(** The diagnostics a [qsort] run collected from its comparator. *)
Definition perror_all (msgs : list string) (p : Proc) : Proc :=
  mk_Proc (p_stdout p) (p_stderr p ++ msgs)%list (p_open_dirs p).

(** A successful [opendir]. *)
Definition dir_opened (p : Proc) : Proc :=
  mk_Proc (p_stdout p) (p_stderr p) (S (p_open_dirs p)).

Definition closedir (p : Proc) : Proc :=
  mk_Proc (p_stdout p) (p_stderr p) (pred (p_open_dirs p)).

(** ** Renderers *)

Definition blue (s : string) : string := ESC ++ "[34m" ++ s ++ ESC ++ "[0m".
Definition cyan (s : string) : string := ESC ++ "[36m" ++ s ++ ESC ++ "[0m".
Definition green (s : string) : string := ESC ++ "[32m" ++ s ++ ESC ++ "[0m".

(** [readlink(path, target_path, sizeof(target_path) - 1)] with the
    256-byte buffer: at most 255 bytes of the target. *)
Definition readlink255 (os : OS) (path : string) : option string :=
  option_map (take 255) (os_readlink os path).

(** The common body of [print_with_color] and [print_column_with_color],
    which differ only in what ends the entry ([tail]). *)
Definition print_colored (tail : string) (os : OS) (fl : Flags)
  (path : string) (p : Proc) : Proc :=
  let file_name := os_basename os path in
  match os_lstat os path with
  | None => perror "Failed to retrieve file information" p
  | Some file_info =>
      if negb (is_no_sort_enabled fl) then
        if S_ISDIR (st_mode file_info) then printf (blue file_name ++ tail) p
        else if S_ISLNK (st_mode file_info) then
          match readlink255 os path, is_long_format_enabled fl with
          | Some target_path, true =>
              match os_lstat os target_path with
              | None => printf (cyan file_name ++ " -> " ++ target_path ++ tail) p
              | Some target_info =>
                  if S_ISDIR (st_mode target_info)
                  then printf (cyan file_name ++ " -> " ++ blue target_path ++ tail) p
                  else if has (st_mode target_info) S_IXUSR
                  then printf (cyan file_name ++ " -> " ++ green target_path ++ tail) p
                  else printf (cyan file_name ++ " -> " ++ target_path ++ tail) p
              end
          | _, _ => printf (cyan file_name ++ tail) p
          end
        else if has (st_mode file_info) S_IXUSR then printf (green file_name ++ tail) p
        else printf (file_name ++ tail) p
      else
        match readlink255 os path, is_long_format_enabled fl with
        | Some target_path, true => printf (file_name ++ " -> " ++ target_path ++ tail) p
        | _, _ => printf (file_name ++ tail) p
        end
  end.

Definition print_with_color := print_colored "   ".
Definition print_column_with_color := print_colored NL.

(** ** The long-format formatter *)

Definition type_char (mode : Z) : string :=
  if S_ISREG mode then "-"
  else if S_ISDIR mode then "d"
  else if S_ISBLK mode then "b"
  else if S_ISCHR mode then "c"
  else if S_ISLNK mode then "l"
  else if S_ISFIFO mode then "p"
  else if S_ISSOCK mode then "s"
  else "Unknown type".

(** [buf[i] = c] on a string. *)
Fixpoint set_char (i : nat) (c : ascii) (s : string) : string :=
  match s, i with
  | EmptyString, _ => EmptyString
  | String _ r, O => String c r
  | String d r, S k => String d (set_char k c r)
  end.

(** The permission buffer of [print_longformat]: [strcpy] of nine dashes,
    then one conditional store per bit. *)
Definition permissions (mode : Z) : string :=
  let p := "---------" in
  let p := if has mode S_IRUSR then set_char 0 "r" p else p in
  let p := if has mode S_IWUSR then set_char 1 "w" p else p in
  let p := if has mode S_IXUSR
           then set_char 2 (if has mode S_ISUID then "s" else "x")%char p else p in
  let p := if has mode S_IRGRP then set_char 3 "r" p else p in
  let p := if has mode S_IWGRP then set_char 4 "w" p else p in
  let p := if has mode S_IXGRP
           then set_char 5 (if has mode S_ISGID then "s" else "x")%char p else p in
  let p := if has mode S_IROTH then set_char 6 "r" p else p in
  let p := if has mode S_IWOTH then set_char 7 "w" p else p in
  let p := if has mode S_IXOTH
           then set_char 8 (if has mode S_ISVTX then "t" else "x")%char p else p in
  p.

Definition print_longformat (os : OS) (fl : Flags) (path : string) (p : Proc)
  : Proc :=
  match os_lstat os path with
  | None => perror "lstat failed" p
  | Some buf =>
      let mode := st_mode buf in
      let p := printf (type_char mode) p in
      match os_getpwuid os (st_uid buf) with
      | None => perror "getpwuid failed" p
      | Some pw_name =>
          match os_getgrgid os (st_gid buf) with
          | None => perror "getgrgid failed" p
          | Some gr_name =>
              match os_localtime_fmt os (st_mtime buf) with
              | None => perror "localtime failed" p
              | Some time_str =>
                  if (String.length time_str =? 0)%nat
                  then printf ("Error formatting the time" ++ NL) p
                  else
                    let p := printf (permissions mode ++ " ") p in
                    let p := printf (pad_right 2 (dec (st_nlink buf)) ++ " ") p in
                    let p := printf (pad_left 6 pw_name ++ " ") p in
                    let p := printf (pad_left 6 gr_name ++ " ") p in
                    let p := printf (pad_left 5 (dec (st_size buf)) ++ " ") p in
                    let p := printf (pad_left 16 time_str ++ " ") p in
                    let p := print_with_color os fl path p in
                    printf NL p
              end
          end
      end
  end.

(** ** Listing a path in short form: [do_ls] *)

Definition MAX_ENTRIES : nat := 100.

(** The test that makes both read loops [continue]. *)
Definition skips_entry (fl : Flags) (d_name : string) : bool :=
  Ascii.eqb (first_char d_name) "."
  && negb (is_hidden_files_enabled fl) && negb (is_no_sort_enabled fl).

(** The [readdir] loop of [do_ls].  [file_entries] is the part of the array
    filled so far; a store past its [MAX_ENTRIES] slots is undefined
    behaviour, shown as [None]. *)
Fixpoint do_ls_read (fl : Flags) (ents file_entries : list string)
  : option (list string) :=
  match ents with
  | [] => Some file_entries
  | d_name :: rest =>
      if skips_entry fl d_name then do_ls_read fl rest file_entries
      else if (MAX_ENTRIES <=? List.length file_entries)%nat then None
      else do_ls_read fl rest (file_entries ++ [d_name])%list
  end.

Definition do_ls_sort (os : OS) (fl : Flags) (file_entries : list string)
  : list string * list string :=
  if (is_sort_by_time_enabled fl || is_sort_by_access_time_enabled fl)
     && negb (is_no_sort_enabled fl)
  then qsort (compare_by_access_time os) file_entries
  else if is_ctime_option_enabled fl && negb (is_no_sort_enabled fl)
  then qsort (compare_by_ctime os) file_entries
  else if negb (is_no_sort_enabled fl)
  then qsort compare_with_hidden file_entries
  else (file_entries, []).

(** [full_path] as [do_ls] builds it in its 1024-byte buffer. *)
Definition full_path_of (input_path name : string) : string :=
  if strcmp input_path "/" =? 0
  then snprintf 1024 (input_path ++ name)
  else snprintf 1024 (input_path ++ "/" ++ name).

Definition print_inode (os : OS) (fl : Flags) (path : string) (p : Proc) : Proc :=
  if is_inode_enabled fl then
    match os_lstat os path with
    | Some file_stat => printf (pad_left 6 (dec (st_ino file_stat)) ++ " ") p
    | None => p
    end
  else p.

Definition print_entry (os : OS) (fl : Flags) (path : string) (p : Proc) : Proc :=
  if is_column_output_enabled fl
  then print_column_with_color os fl path p
  else print_with_color os fl path p.

Fixpoint do_ls_print (os : OS) (fl : Flags) (input_path : string)
  (file_entries : list string) (p : Proc) : Proc :=
  match file_entries with
  | [] => p
  | name :: rest =>
      let full_path := full_path_of input_path name in
      let p := print_inode os fl full_path p in
      let p := print_entry os fl full_path p in
      do_ls_print os fl input_path rest p
  end.

Definition final_newline (fl : Flags) (p : Proc) : Proc :=
  if is_column_output_enabled fl then p else printf NL p.

Definition do_ls (os : OS) (fl : Flags) (input_path : string) (p : Proc)
  : option Proc :=
  match os_opendir os input_path with
  | None =>
      match os_stat os input_path with
      | None => Some (perror "stat failed" p)
      | Some file_stat =>
          if negb (S_ISREG (st_mode file_stat))
          then Some (fprintf_stderr ("Cannot open directory: " ++ input_path) p)
          else
            let p := print_inode os fl input_path p in
            let p := print_entry os fl input_path p in
            Some (final_newline fl p)
      end
  | Some ents =>
      let p := dir_opened p in
      match do_ls_read fl ents [] with
      | None => None
      | Some file_entries =>
          let p := closedir p in
          let (sorted, diags) := do_ls_sort os fl file_entries in
          let p := perror_all diags p in
          let p := do_ls_print os fl input_path sorted p in
          Some (final_newline fl p)
      end
  end.

(** The names [do_ls] renders for a directory, in rendering order. *)
Definition do_ls_order (os : OS) (fl : Flags) (input_path : string)
  : option (list string) :=
  match os_opendir os input_path with
  | None => None
  | Some ents =>
      option_map (fun file_entries => fst (do_ls_sort os fl file_entries))
                 (do_ls_read fl ents [])
  end.

(** ** Listing a path in long form: [list_directory_long_format] *)

(** [long] arithmetic: 64 bits, two's complement. *)
Definition wrap_long (z : Z) : Z := (z + 2 ^ 63) mod 2 ^ 64 - 2 ^ 63.

Inductive read_result :=
| Read_done (filenames : list string) (total_size : Z)
| Read_return                 (* the [return] after a failed [stat] *)
| Read_overflow.              (* a store past [filenames[1023]] *)

(** The first pass.  [full_path] is built before the hidden-file test, the
    name is stored before [stat] is tried. *)
Fixpoint long_read (os : OS) (fl : Flags) (input_path : string)
  (ents filenames : list string) (total_size : Z) : read_result :=
  match ents with
  | [] => Read_done filenames total_size
  | d_name :: rest =>
      let full_path := full_path_of input_path d_name in
      if skips_entry fl d_name
      then long_read os fl input_path rest filenames total_size
      else if (1024 <=? List.length filenames)%nat then Read_overflow
      else
        match os_stat os full_path with
        | Some file_stat =>
            long_read os fl input_path rest (filenames ++ [d_name])%list
                      (wrap_long (total_size + st_size file_stat))
        | None => Read_return
        end
  end.

Definition long_sort (os : OS) (fl : Flags) (filenames : list string)
  : list string * list string :=
  if is_hidden_files_enabled fl && negb (is_sort_by_time_enabled fl)
     && negb (is_no_sort_enabled fl)
  then qsort compare_with_hidden filenames
  else if is_sort_by_time_enabled fl && negb (is_no_sort_enabled fl)
  then qsort (compare_by_access_time os) filenames
  else if negb (is_no_sort_enabled fl)
  then qsort compare_case_insensitive filenames
  else (filenames, []).

(** The second pass always joins with a slash. *)
Fixpoint long_print (os : OS) (fl : Flags) (input_path : string)
  (filenames : list string) (p : Proc) : Proc :=
  match filenames with
  | [] => p
  | name :: rest =>
      let full_path := snprintf 1024 (input_path ++ "/" ++ name) in
      let p := print_inode os fl full_path p in
      let p := print_longformat os fl full_path p in
      long_print os fl input_path rest p
  end.

Definition total_line (total_size : Z) : string :=
  "total " ++ dec (Z.quot total_size 1024) ++ NL.

Definition list_directory_long_format (os : OS) (fl : Flags)
  (input_path : string) (p : Proc) : option Proc :=
  match os_opendir os input_path with
  | None =>
      match os_stat os input_path with
      | None => Some (perror "stat failed" p)
      | Some file_stat =>
          if negb (S_ISREG (st_mode file_stat))
          then Some (fprintf_stderr ("Cannot open directory: " ++ input_path) p)
          else
            let p := print_inode os fl input_path p in
            Some (print_longformat os fl input_path p)
      end
  | Some ents =>
      let p := dir_opened p in
      match long_read os fl input_path ents [] 0 with
      | Read_overflow => None
      | Read_return => Some (perror "stat failed" p)
      | Read_done filenames total_size =>
          let p := closedir p in
          let (sorted, diags) := long_sort os fl filenames in
          let p := perror_all diags p in
          let p := printf (total_line total_size) p in
          Some (long_print os fl input_path sorted p)
      end
  end.

(** The names the long listing renders for a directory, in rendering
    order; [None] when nothing is rendered. *)
Definition long_order (os : OS) (fl : Flags) (input_path : string)
  : option (list string) :=
  match os_opendir os input_path with
  | None => None
  | Some ents =>
      match long_read os fl input_path ents [] 0 with
      | Read_done filenames _ => Some (fst (long_sort os fl filenames))
      | _ => None
      end
  end.

(** ** Listing the paths themselves: [list_directories]

    [compare] writes no diagnostic, so only the sorted array is kept. *)

Definition list_directories_entry (os : OS) (fl : Flags) (path : string)
  (p : Proc) : Proc :=
  if is_long_format_enabled fl then print_longformat os fl path p
  else if is_column_output_enabled fl
  then print_column_with_color os fl path p
  else print_with_color os fl path p.

Fixpoint list_directories_loop (os : OS) (fl : Flags)
  (multiArgs : list string) (p : Proc) : Proc :=
  match multiArgs with
  | [] => p
  | path :: rest =>
      match os_stat os path with
      | None => list_directories_loop os fl rest (perror "stat failed" p)
      | Some _ =>
          list_directories_loop os fl rest (list_directories_entry os fl path p)
      end
  end.

Definition list_directories (os : OS) (fl : Flags) (multiArgs : list string)
  (p : Proc) : Proc :=
  let sorted := fst (qsort compare multiArgs) in
  let p := list_directories_loop os fl sorted p in
  if negb (is_long_format_enabled fl) && negb (is_column_output_enabled fl)
  then printf NL p
  else p.

(** ** Files first, then directories: [sort_and_display] *)

Definition MAX_ARGS : nat := 100.

(** [is_directory] does not test what [stat] returns: when [stat] fails the
    mode it reads is whatever the never-written [struct stat] holds,
    [junk_mode]. *)
Definition is_directory (os : OS) (junk_mode : Z) (file_path : string) : bool :=
  match os_stat os file_path with
  | Some file_stat => S_ISDIR (st_mode file_stat)
  | None => S_ISDIR junk_mode
  end.

(** The separating loop.  [junk i] is the stale mode met by the [i]-th
    call of [is_directory]; a store past either [MAX_ARGS]-slot array is
    undefined behaviour, shown as [None]. *)
Fixpoint split_paths (os : OS) (junk : nat -> Z) (i : nat)
  (file_paths regular_files directories : list string)
  : option (list string * list string) :=
  match file_paths with
  | [] => Some (regular_files, directories)
  | path :: rest =>
      if is_directory os (junk i) path then
        if (MAX_ARGS <=? List.length directories)%nat then None
        else split_paths os junk (S i) rest regular_files
                         (directories ++ [path])%list
      else
        if (MAX_ARGS <=? List.length regular_files)%nat then None
        else split_paths os junk (S i) rest (regular_files ++ [path])%list
                         directories
  end.

(** The body shared by the two display loops. *)
Definition display_one (os : OS) (fl : Flags) (path : string) (p : Proc)
  : option Proc :=
  if is_long_format_enabled fl then list_directory_long_format os fl path p
  else if is_no_option_enabled fl || is_hidden_files_enabled fl
  then do_ls os fl path p
  else Some p.

Fixpoint display_files (os : OS) (fl : Flags) (regular_files : list string)
  (p : Proc) : option Proc :=
  match regular_files with
  | [] => Some p
  | path :: rest =>
      match display_one os fl path p with
      | None => None
      | Some p' => display_files os fl rest p'
      end
  end.

Fixpoint display_directories (os : OS) (fl : Flags) (header : bool)
  (directories : list string) (p : Proc) : option Proc :=
  match directories with
  | [] => Some p
  | path :: rest =>
      let p := if header then printf (NL ++ path ++ ":" ++ NL) p else p in
      match display_one os fl path p with
      | None => None
      | Some p' => display_directories os fl header rest p'
      end
  end.

Definition sort_and_display (os : OS) (junk : nat -> Z) (fl : Flags)
  (file_paths : list string) (p : Proc) : option Proc :=
  match split_paths os junk 0 file_paths [] [] with
  | None => None
  | Some (regular_files, directories) =>
      let regular_files := fst (qsort compare regular_files) in
      let directories := fst (qsort compare directories) in
      match display_files os fl regular_files p with
      | None => None
      | Some p' =>
          display_directories os fl
            (negb (List.length regular_files =? 0)%nat
             || (1 <? List.length file_paths)%nat)
            directories p'
      end
  end.

(** ** [main]

    [getopt] belongs to the C library; what it did is taken as given: the
    option characters it returned in order, the arguments [argv[1..]] as it
    left them, and [optind].  What [getopt] itself writes about an unknown
    option is not followed. *)

Record Invocation := mk_Invocation {
  inv_argv0 : string;
  inv_argv : list string;        (* argv[1], ..., argv[argc - 1] *)
  inv_opts : list ascii;         (* the characters [getopt] returned *)
  inv_optind : nat;              (* [optind] once [getopt] returned -1 *)
  inv_cwd : option string        (* [getcwd(buffer, 100)]; [None] for NULL *)
}.

Inductive outcome :=
| Returns (status : Z) (p : Proc)
| Undefined                      (* undefined behaviour was reached *)
| Never_returns.                 (* the argument loop does not end *)

(** What the [switch] writes for one option character. *)
Definition switch_output (argv0 : string) (opt : ascii) (p : Proc) : Proc :=
  match opt with
  | "l"%char | "a"%char | "t"%char | "u"%char | "d"%char | "c"%char
  | "f"%char | "i"%char | "1"%char => p
  | "?"%char =>
      fprintf_stderr
        ("Usage: " ++ argv0 ++ " [-l [directory1 [directory2 ...]]]") p
  | _ => printf ("Unexpected case in switch()" ++ NL) p
  end.

(** The loop that collects the operands after the options: it stops at the
    first argument that starts with a dash and gives up on the 101st. *)
Fixpoint collect_operands (rest multiArgs : list string)
  : option (list string) :=
  match rest with
  | [] => Some multiArgs
  | arg :: rest' =>
      if Ascii.eqb (first_char arg) "-" then Some multiArgs
      else if (List.length multiArgs <? MAX_ARGS)%nat
      then collect_operands rest' (multiArgs ++ [arg])%list
      else None
  end.

(** The loop that collects every argument when no option was met:
    [uint8_t i = 1; while (argv[i] != NULL) { ...; i++; }].  [argv] is the
    whole array, [argv[0]] included, and ends with NULL at index [argc], so
    a lookup that finds nothing reads that NULL; [i] is one byte wide and
    its increment wraps at 256; an argument met once 100 are stored is
    dropped.  One unit of [fuel] pays for one turn of the loop; [None]
    says the loop has not ended within the fuel. *)
Fixpoint collect_all (fuel : nat) (argv : list string) (i : nat)
  (multiArgs : list string) : option (list string) :=
  match fuel with
  | O => None
  | S fuel' =>
      match nth_error argv i with
      | None => Some multiArgs
      | Some arg =>
          collect_all fuel' argv ((i + 1) mod 256)
            (if (List.length multiArgs <? MAX_ARGS)%nat
             then (multiArgs ++ [arg])%list else multiArgs)
      end
  end.

(** A listing routine run on the working directory; [opendir(NULL)] is
    undefined. *)
Definition on_directory (directory : option string)
  (routine : string -> Proc -> option Proc) (p : Proc) : outcome :=
  match directory with
  | None => Undefined
  | Some d =>
      match routine d p with
      | Some p' => Returns 0 p'
      | None => Undefined
      end
  end.

Definition returning (r : option Proc) : outcome :=
  match r with
  | Some p' => Returns 0 p'
  | None => Undefined
  end.

(** The chain of tests that follows the collection of the operands. *)
Definition dispatch (os : OS) (junk : nat -> Z) (fl : Flags)
  (directory : option string) (multiArgs : list string) (p : Proc) : outcome :=
  let none := (List.length multiArgs =? 0)%nat in
  let some := (0 <? List.length multiArgs)%nat in
  let lng := is_long_format_enabled fl in
  let hid := is_hidden_files_enabled fl in
  let dir := is_directory_option_enabled fl in
  let other := is_sort_by_time_enabled fl || is_ctime_option_enabled fl
               || is_sort_by_access_time_enabled fl || is_no_sort_enabled fl
               || is_inode_enabled fl || is_column_output_enabled fl in
  if none && lng && negb dir
  then on_directory directory (list_directory_long_format os fl) p
  else if some && lng && negb dir
  then returning (sort_and_display os junk fl multiArgs p)
  else if none && hid && negb dir
  then on_directory directory (do_ls os fl) p
  else if some && hid && negb dir
  then returning (sort_and_display os junk fl multiArgs p)
  else if none && other && negb dir
  then on_directory directory (do_ls os fl) p
  else if some && other && negb dir
  then returning (sort_and_display os junk fl multiArgs p)
  else if none && dir
  then (if is_no_sort_enabled fl
        then Returns 0 (printf ("." ++ NL) p)
        else Returns 0 (printf NL (print_with_color os fl "." p)))
  else if some && dir
  then Returns 0 (list_directories os fl multiArgs p)
  else Returns 0 p.

Definition main (os : OS) (junk : nat -> Z) (inv : Invocation) (p : Proc)
  : outcome :=
  let directory := inv_cwd inv in
  match inv_argv inv with
  | [] =>
      let p := printf ("Directory listing of pwd:" ++ NL) p in
      on_directory directory (do_ls os no_flags) p
  | _ :: _ =>
      let p := fold_left (fun p opt => switch_output (inv_argv0 inv) opt p)
                         (inv_opts inv) p in
      let fl := parse_options (inv_opts inv) in
      if negb (is_no_option_enabled fl) then
        (* after 256 turns [i] is back where it started: a loop that has
           not met NULL by then meets the same entries for ever *)
        match collect_all 256 (inv_argv0 inv :: inv_argv inv) 1 [] with
        | None => Never_returns
        | Some multiArgs =>
            let fl := mk_Flags false true false false false false false false
                               false false in
            returning (sort_and_display os junk fl multiArgs p)
        end
      else
        match collect_operands (skipn (inv_optind inv - 1) (inv_argv inv)) []
        with
        | None =>
            Returns 1 (fprintf_stderr "Too many arguments for option -l" p)
        | Some multiArgs => dispatch os junk fl directory multiArgs p
        end
  end.

(** ** Vocabulary of the statements *)

(** [a] may stand before [b] according to the comparator. *)
Definition cmp_le (cmp : cmp_fn) (a b : string) : Prop := fst (cmp a b) <= 0.

(** The entries that survive the hidden-file test, in enumeration order. *)
Definition listed (fl : Flags) (ents : list string) : list string :=
  filter (fun d_name => negb (skips_entry fl d_name)) ents.

(** Size of an entry as the first pass of the long listing reads it: with
    [stat], which follows a symbolic link to its target. *)
Definition size_of (os : OS) (path : string) : Z :=
  match os_stat os path with
  | Some file_stat => st_size file_stat
  | None => 0
  end.

Definition sum_sizes (os : OS) (input_path : string) (names : list string) : Z :=
  fold_right (fun name acc => size_of os (full_path_of input_path name) + acc)
             0 names.

(** The character the claim expects at position [i] of the permission
    string when the permission bit of that position is set. *)
Definition shown_char (mode : Z) (i : nat) : ascii :=
  match i with
  | 0%nat | 3%nat | 6%nat => "r"
  | 1%nat | 4%nat | 7%nat => "w"
  | 2%nat => if Z.testbit mode 11 then "s" else "x"
  | 5%nat => if Z.testbit mode 10 then "s" else "x"
  | _ => if Z.testbit mode 9 then "t" else "x"
  end.

(** [stat] succeeds on the entry and reports a size that is not negative. *)
Definition stat_ok (os : OS) (input_path name : string) : Prop :=
  exists file_stat,
    os_stat os (full_path_of input_path name) = Some file_stat /\
    0 <= st_size file_stat.

(** [q] was reached from [p] by writing to standard output only at its
    end. *)
Definition extends (p q : Proc) : Prop :=
  exists s, p_stdout q = p_stdout p ++ s.

(** The hidden-file condition of the read loops, as a proposition. *)
Definition hidden_and_filtered (fl : Flags) (d_name : string) : Prop :=
  first_char d_name = "."%char /\
  is_hidden_files_enabled fl = false /\
  is_no_sort_enabled fl = false.

(** [a] may stand before [b] once both names are folded to lower case. *)
Definition case_insensitive_le (a b : string) : Prop :=
  strcmp (lower_copy a) (lower_copy b) <= 0.

(** The comparator [do_ls] hands to [qsort] when one of the three time
    flags is set and sorting is not disabled. *)
Definition time_cmp (os : OS) (fl : Flags) : cmp_fn :=
  if is_sort_by_time_enabled fl || is_sort_by_access_time_enabled fl
  then compare_by_access_time os
  else compare_by_ctime os.

(** [q] holds as many open directory handles as [p]. *)
Definition same_dirs (p q : Proc) : Prop := p_open_dirs q = p_open_dirs p.

(** ** Small file systems to run the listing on *)

Module Fixture.

Fixpoint lookup {A : Type} (key : string) (table : list (string * A))
  : option A :=
  match table with
  | [] => None
  | (k, v) :: rest => if String.eqb key k then Some v else lookup key rest
  end.

Fixpoint has_slash (s : string) : bool :=
  match s with
  | EmptyString => false
  | String c r => Ascii.eqb c "/" || has_slash r
  end.

(** The last component of a path without trailing slashes. *)
Fixpoint last_component (s : string) : string :=
  match s with
  | EmptyString => EmptyString
  | String c r =>
      if has_slash r then last_component r
      else if Ascii.eqb c "/" then r else String c r
  end.

(** A system given by its directories and by what [stat] and [lstat]
    report for each path; every user and group id resolves, every time
    formats, and nothing is a symbolic link unless [links] says so. *)
Definition table_os (dirs : list (string * list string))
  (stats lstats : list (string * stat_t)) (links : list (string * string))
  : OS :=
  mk_OS (fun path => lookup path dirs)
        (fun path => lookup path stats)
        (fun path => lookup path lstats)
        (fun path => lookup path links)
        (fun _ => Some "user") (fun _ => Some "group")
        (fun _ => Some "Monday 01 00:00")
        last_component.

(** A regular file, mode 0644, with the given size and time stamps. *)
Definition file (ino size atime mtime ctime : Z) : stat_t :=
  mk_stat (S_IFREG + 420) ino 1 1000 1000 size atime mtime ctime.

Definition directory (ino : Z) : stat_t :=
  mk_stat (S_IFDIR + 493) ino 2 1000 1000 4096 0 0 0.

Definition symlink (ino : Z) : stat_t :=
  mk_stat (S_IFLNK + 511) ino 1 1000 1000 7 0 0 0.

(** The working directory [/home/u] holds [a], read last but modified
    first, and [b], modified last but read first. *)
Definition home_stats : list (string * stat_t) :=
  [ ("a", file 11 10 200 100 150); ("b", file 12 20 100 200 150);
    ("/home/u/a", file 11 10 200 100 150);
    ("/home/u/b", file 12 20 100 200 150);
    (".", directory 2); ("..", directory 1);
    ("/home/u/.", directory 2); ("/home/u/..", directory 1);
    ("/home/u", directory 2) ].

Definition home_os : OS :=
  table_os [("/home/u", [".."; "."; "b"; "a"])] home_stats home_stats [].

(** [/srv] holds two files of 1000 and 2000 bytes and a symbolic link
    [gone] whose target does not exist: [lstat] succeeds on it, [stat]
    fails.  The working directory is elsewhere. *)
Definition srv_stats : list (string * stat_t) :=
  [ ("/srv/a", file 21 1000 5 5 5); ("/srv/b", file 22 2000 6 6 6);
    ("/srv/.", directory 20); ("/srv/..", directory 1);
    ("/srv", directory 20); (".", directory 2); ("..", directory 1) ].

Definition srv_os : OS :=
  table_os [("/srv", ["."; ".."; "a"; "gone"; "b"])]
           srv_stats (("/srv/gone", symlink 23) :: srv_stats)
           [("/srv/gone", "nowhere")].

(** [/pub] holds two files and nothing else; [a] was read after [b].  The
    working directory is elsewhere and holds neither name. *)
Definition pub_stats : list (string * stat_t) :=
  [ ("/pub/a", file 21 1000 6 6 6); ("/pub/b", file 22 2000 5 5 5);
    ("/pub/.", directory 20); ("/pub/..", directory 1);
    ("/pub", directory 20); (".", directory 2); ("..", directory 1) ].

Definition pub_os : OS :=
  table_os [("/pub", ["."; ".."; "a"; "b"])] pub_stats pub_stats [].

(** [/fruit] holds three files whose names differ in case. *)
Definition fruit_stats : list (string * stat_t) :=
  [ ("/fruit/Banana", file 31 1 1 1 1); ("/fruit/apple", file 32 1 1 1 1);
    ("/fruit/Cherry", file 33 1 1 1 1);
    ("/fruit/.", directory 30); ("/fruit/..", directory 1);
    ("/fruit", directory 30); (".", directory 2); ("..", directory 1) ].

Definition fruit_os : OS :=
  table_os [("/fruit", ["."; ".."; "Banana"; "apple"; "Cherry"])]
           fruit_stats fruit_stats [].

End Fixture.

(** ** Further vocabulary *)

(** The option letter [c] occurs among the characters [getopt] returned. *)
Definition letter_in (c : ascii) (opts : list ascii) : bool :=
  existsb (Ascii.eqb c) opts.

(** [name] reads as [.] or as [..]. *)
Definition is_dot (name : string) : Prop :=
  strcmp name "." = 0 \/ strcmp name ".." = 0.

(** The order [compare_with_hidden] accepts: [.] and [..] before anything,
    any other name only before a name that is neither and is not smaller
    in byte order. *)
Definition hidden_first_le (a b : string) : Prop :=
  is_dot a \/ (~ is_dot b /\ strcmp a b <= 0).

Definition byte_le (a b : string) : Prop := strcmp a b <= 0.

Definition atime_of (os : OS) (name : string) : Z :=
  match os_stat os name with
  | Some file_stat => st_atime file_stat
  | None => 0
  end.

Definition ctime_of (os : OS) (name : string) : Z :=
  match os_stat os name with
  | Some file_stat => st_ctime file_stat
  | None => 0
  end.

(** Later access time first, equal access times in byte order of names. *)
Definition access_order (os : OS) (a b : string) : Prop :=
  atime_of os b < atime_of os a \/
  (atime_of os a = atime_of os b /\ strcmp a b <= 0).

(** Change time not increasing. *)
Definition ctime_order (os : OS) (a b : string) : Prop :=
  ctime_of os b <= ctime_of os a.

(** [stat] succeeds on the name as given. *)
Definition resolves (os : OS) (name : string) : Prop :=
  os_stat os name <> None.

Definition stat_okb (os : OS) (path : string) : bool :=
  match os_stat os path with Some _ => true | None => false end.

Definition lstat_okb (os : OS) (path : string) : bool :=
  match os_lstat os path with Some _ => true | None => false end.

(** The arguments before the first one that starts with a dash. *)
Fixpoint leading_operands (rest : list string) : list string :=
  match rest with
  | [] => []
  | arg :: rest' =>
      if Ascii.eqb (first_char arg) "-" then []
      else arg :: leading_operands rest'
  end.

(** The text [do_ls] formats into [full_path], before the buffer cuts it. *)
Definition joined (input_path name : string) : string :=
  if strcmp input_path "/" =? 0 then input_path ++ name
  else input_path ++ "/" ++ name.

(** The flags of an invocation without any option. *)
Definition only_no_option : Flags :=
  mk_Flags false true false false false false false false false false.

(** [stat] succeeds on the path and shows a directory. *)
Definition is_dir_path (os : OS) (path : string) : bool :=
  match os_stat os path with
  | Some file_stat => S_ISDIR (st_mode file_stat)
  | None => false
  end.

(** What ends the output of [list_directories]. *)
Definition closing_newline (fl : Flags) : string :=
  if negb (is_long_format_enabled fl) && negb (is_column_output_enabled fl)
  then NL else "".

(** The process once the option loop of [main] is over. *)
Definition after_switch (inv : Invocation) (p : Proc) : Proc :=
  fold_left (fun p opt => switch_output (inv_argv0 inv) opt p)
            (inv_opts inv) p.

(** The operands [main] finds after the options. *)
Definition operands (inv : Invocation) : list string :=
  leading_operands (skipn (inv_optind inv - 1) (inv_argv inv)).

(** The same invocation with other arguments. *)
Definition with_argv (inv : Invocation) (argv : list string) : Invocation :=
  mk_Invocation (inv_argv0 inv) argv (inv_opts inv) (inv_optind inv)
                (inv_cwd inv).

(** What a step writes to standard output when it starts from nothing. *)
Definition text_of (f : Proc -> Proc) : string := p_stdout (f proc0).

(** The step adds the same text to standard output whatever was written
    before. *)
Definition appends (f : Proc -> Proc) : Prop :=
  forall p, p_stdout (f p) = p_stdout p ++ text_of f.

(** Size of an entry as its line of the long listing shows it: with
    [lstat], which does not follow a symbolic link. *)
Definition shown_size (os : OS) (path : string) : Z :=
  match os_lstat os path with
  | Some buf => st_size buf
  | None => 0
  end.

Definition sum_shown_sizes (os : OS) (input_path : string)
  (names : list string) : Z :=
  fold_right
    (fun name acc =>
       shown_size os (snprintf 1024 (input_path ++ "/" ++ name)) + acc)
    0 names.

(** The first line of what a run wrote to standard output is [line]. *)
Definition first_line_is (line : string) (run : option Proc) : Prop :=
  match run with
  | Some p' => String.prefix (line ++ NL) (p_stdout p') = true
  | None => False
  end.

(** The time stamps of the listed entry itself, looked up under the path
    of the listed directory. *)
Definition entry_atime (os : OS) (input_path name : string) : Z :=
  atime_of os (full_path_of input_path name).

Definition entry_ctime (os : OS) (input_path name : string) : Z :=
  ctime_of os (full_path_of input_path name).

(** Later own access time first, equal access times in byte order of the
    names. *)
Definition entry_access_order (os : OS) (input_path a b : string) : Prop :=
  entry_atime os input_path b < entry_atime os input_path a \/
  (entry_atime os input_path a = entry_atime os input_path b /\
   strcmp a b <= 0).

(** Own change time not increasing. *)
Definition entry_ctime_order (os : OS) (input_path a b : string) : Prop :=
  entry_ctime os input_path b <= entry_ctime os input_path a.

(** The bare name resolves, and to the listed entry: [stat] answers for it
    what it answers for the entry's path under the listed directory, as it
    does when the listed directory is the working directory. *)
Definition names_the_entry (os : OS) (input_path name : string) : Prop :=
  os_stat os name <> None /\
  os_stat os name = os_stat os (full_path_of input_path name).

(** The last byte of the path is a slash: [basename] would cut it. *)
Fixpoint ends_with_slash (path : string) : bool :=
  match path with
  | EmptyString => false
  | String c EmptyString => Ascii.eqb c "/"
  | String _ rest => ends_with_slash rest
  end.

(** ** More file systems *)

Module Scenes.

(** [/lnk] holds one symbolic link, seven bytes long, to a file of 10240
    bytes. *)
Definition link_os : OS :=
  Fixture.table_os
    [("/lnk", ["."; ".."; "link"])]
    [("/lnk/link", Fixture.file 41 10240 1 1 1);
     ("/lnk/.", Fixture.directory 40); ("/lnk/..", Fixture.directory 1)]
    [("/lnk/link", Fixture.symlink 42);
     ("/lnk/.", Fixture.directory 40); ("/lnk/..", Fixture.directory 1)]
    [("/lnk/link", "target")].

(** [/huge] holds three sparse files of 2^62 bytes each. *)
Definition huge_stats : list (string * stat_t) :=
  [ ("/huge/x", Fixture.file 51 (2 ^ 62) 1 1 1);
    ("/huge/y", Fixture.file 52 (2 ^ 62) 1 1 1);
    ("/huge/z", Fixture.file 53 (2 ^ 62) 1 1 1);
    ("/huge/.", Fixture.directory 50); ("/huge/..", Fixture.directory 1) ].

Definition huge_os : OS :=
  Fixture.table_os [("/huge", ["."; ".."; "x"; "y"; "z"])]
                   huge_stats huge_stats [].

(** [/etc] with two entries, listed as operands. *)
Definition etc_stats : list (string * stat_t) :=
  [ ("/etc", Fixture.directory 60); ("/etc/passwd", Fixture.file 61 9 1 1 1) ].

Definition etc_os : OS :=
  Fixture.table_os [("/etc", ["."; ".."; "passwd"])] etc_stats etc_stats [].

End Scenes.

(** ** Facts about C strings *)

Lemma uchar_nonneg (c : ascii) : 0 <= uchar c.
Proof. unfold uchar. lia. Qed.

Lemma uchar_zero (c : ascii) : uchar c = 0 -> c = zero.
Proof.
  unfold uchar. intros H.
  assert (N_of_ascii c = 0%N) as H0 by lia.
  rewrite <- (ascii_N_embedding c), H0. reflexivity.
Qed.

Lemma uchar_inj (c d : ascii) : uchar c = uchar d -> c = d.
Proof.
  unfold uchar. intros H.
  rewrite <- (ascii_N_embedding c), <- (ascii_N_embedding d).
  f_equal. lia.
Qed.

Lemma strcmp_refl (s : string) : strcmp s s = 0.
Proof.
  induction s as [|c r IH]; simpl; [reflexivity|].
  rewrite Ascii.eqb_refl. destruct (Ascii.eqb c zero); auto.
Qed.

Lemma strcmp_antisym (s t : string) : strcmp t s = - strcmp s t.
Proof.
  revert t. induction s as [|c r IH]; intros [|d u]; simpl; try lia.
  rewrite (Ascii.eqb_sym d c).
  destruct (Ascii.eqb_spec c d) as [->|Hne]; [|lia].
  destruct (Ascii.eqb d zero); [reflexivity|apply IH].
Qed.

Lemma strcmp_trans (s t u : string) :
  strcmp s t <= 0 -> strcmp t u <= 0 -> strcmp s u <= 0.
Proof.
  revert t u. induction s as [|a s IH]; intros [|b t] [|c u]; simpl.
  all: try pose proof (uchar_nonneg a) as Ha.
  all: try pose proof (uchar_nonneg b) as Hb.
  all: try pose proof (uchar_nonneg c) as Hc.
  all: try lia.
  - intros H _.
    assert (a = zero) as -> by (apply uchar_zero; lia).
    destruct (Ascii.eqb_spec zero c) as [<-|_]; simpl; [lia|].
    change (uchar zero) with 0. lia.
  - intros H1 H2.
    assert (b = zero) as -> by (apply uchar_zero; lia).
    change (uchar zero) with 0 in *.
    destruct (Ascii.eqb_spec a zero) as [->|_]; [reflexivity|lia].
  - destruct (Ascii.eqb_spec a b) as [->|Hab];
    destruct (Ascii.eqb_spec b c) as [->|Hbc].
    + destruct (Ascii.eqb c zero); [lia|apply IH].
    + auto.
    + destruct (Ascii.eqb_spec a c) as [->|_]; [contradiction|]. auto.
    + intros H1 H2.
      destruct (Ascii.eqb_spec a c) as [->|_]; [|lia].
      assert (uchar c <> uchar b) by (intros E; apply uchar_inj in E; auto).
      lia.
Qed.

Lemma strcmp_total (s t : string) : strcmp s t <= 0 \/ strcmp t s <= 0.
Proof. rewrite (strcmp_antisym s t). lia. Qed.

Lemma append_assoc (s t u : string) : (s ++ t) ++ u = s ++ (t ++ u).
Proof. induction s as [|c r IH]; simpl; [reflexivity|now rewrite IH]. Qed.

Lemma append_nil_r (s : string) : s ++ "" = s.
Proof. induction s as [|c r IH]; simpl; [reflexivity|now rewrite IH]. Qed.

(** ** Facts about the sort *)

Section QsortFacts.

Variable cmp : cmp_fn.

Lemma qsort_insert_perm (x : string) (l : list string) :
  Permutation (x :: l) (fst (qsort_insert cmp x l)).
Proof.
  induction l as [|y r IH]; simpl; [apply Permutation_refl|].
  destruct (cmp x y) as [c e]. destruct (c <=? 0); simpl.
  - apply Permutation_refl.
  - destruct (qsort_insert cmp x r) as [r' e']. simpl in *.
    eapply perm_trans; [apply perm_swap|]. now apply perm_skip.
Qed.

Lemma qsort_perm (l : list string) : Permutation l (fst (qsort cmp l)).
Proof.
  induction l as [|x r IH]; simpl; [apply perm_nil|].
  destruct (qsort cmp r) as [r' e]. simpl in IH.
  pose proof (qsort_insert_perm x r') as Hi.
  destruct (qsort_insert cmp x r') as [l' e']. simpl in *.
  eapply perm_trans; [apply perm_skip, IH|exact Hi].
Qed.

Lemma qsort_in (l : list string) (x : string) :
  In x (fst (qsort cmp l)) <-> In x l.
Proof.
  split; apply Permutation_in;
    [apply Permutation_sym|]; apply qsort_perm.
Qed.

(** On names among which the comparator is total and transitive the
    result is ordered: every entry may stand before every later one. *)
Section Ordered.

Variable P : string -> Prop.
Hypothesis cmp_total :
  forall x y, P x -> P y -> cmp_le cmp x y \/ cmp_le cmp y x.
Hypothesis cmp_trans :
  forall x y z, P x -> P y -> P z ->
    cmp_le cmp x y -> cmp_le cmp y z -> cmp_le cmp x z.

Lemma qsort_insert_sorted (x : string) (l : list string) :
  P x -> Forall P l -> StronglySorted (cmp_le cmp) l ->
  StronglySorted (cmp_le cmp) (fst (qsort_insert cmp x l)).
Proof.
  intros Px Pl Hs. induction Hs as [|y r Hs IH Hy]; simpl.
  - repeat constructor.
  - inversion Pl as [|? ? Py Pr]; subst.
    destruct (cmp x y) as [c e] eqn:Hc.
    destruct (Z.leb_spec c 0) as [Hle|Hgt]; simpl.
    + assert (cmp_le cmp x y) as Hxy by (unfold cmp_le; now rewrite Hc).
      constructor; [now constructor|]. constructor; [exact Hxy|].
      rewrite Forall_forall in *. intros z Hz.
      apply (cmp_trans x y z); auto.
    + specialize (IH Pr).
      pose proof (qsort_insert_perm x r) as Hp.
      destruct (qsort_insert cmp x r) as [r' e']. simpl in *.
      constructor; [exact IH|].
      rewrite Forall_forall in *. intros z Hz.
      apply Permutation_sym in Hp.
      apply (Permutation_in _ Hp) in Hz. destruct Hz as [<-|Hz]; auto.
      destruct (cmp_total x y Px Py) as [H|H]; [|exact H].
      unfold cmp_le in H. rewrite Hc in H. simpl in H. lia.
Qed.

Lemma qsort_sorted (l : list string) :
  Forall P l -> StronglySorted (cmp_le cmp) (fst (qsort cmp l)).
Proof.
  induction l as [|x r IH]; simpl; intros Pl; [constructor|].
  inversion Pl as [|? ? Px Pr]; subst. specialize (IH Pr).
  pose proof (qsort_perm r) as Hp.
  destruct (qsort cmp r) as [r' e]. simpl in *.
  assert (Forall P r') as Pr'.
  { rewrite Forall_forall in *. intros z Hz. apply Pr.
    apply Permutation_sym in Hp. exact (Permutation_in _ Hp Hz). }
  pose proof (qsort_insert_sorted x r' Px Pr' IH) as Hi.
  destruct (qsort_insert cmp x r') as [l' e']. exact Hi.
Qed.

End Ordered.

End QsortFacts.

(** ** The permission string *)

Lemma land_pow2 (m k : Z) :
  0 <= k -> Z.land m (2 ^ k) = if Z.testbit m k then 2 ^ k else 0.
Proof.
  intros Hk. apply Z.bits_inj'. intros n Hn.
  rewrite Z.land_spec, Z.pow2_bits_eqb by exact Hk.
  destruct (Z.eqb_spec k n) as [->|Hne].
  - destruct (Z.testbit m n); simpl.
    + now rewrite Z.pow2_bits_eqb, Z.eqb_refl.
    + now rewrite Z.bits_0.
  - rewrite andb_false_r.
    destruct (Z.testbit m k).
    + rewrite Z.pow2_bits_eqb by exact Hk. symmetry. now apply Z.eqb_neq.
    + now rewrite Z.bits_0.
Qed.

Lemma has_testbit (m k : Z) : 0 <= k -> has m (2 ^ k) = Z.testbit m k.
Proof.
  intros Hk. unfold has. rewrite land_pow2 by exact Hk.
  destruct (Z.testbit m k); [|reflexivity].
  assert (0 < 2 ^ k) by (apply Z.pow_pos_nonneg; lia).
  destruct (Z.eqb_spec (2 ^ k) 0); [lia|reflexivity].
Qed.

(** The nine stores of [permissions], one character per position. *)
Lemma permissions_closed_form (mode : Z) :
  permissions mode =
  String (if Z.testbit mode 8 then "r" else "-")
 (String (if Z.testbit mode 7 then "w" else "-")
 (String (if Z.testbit mode 6 then shown_char mode 2 else "-")
 (String (if Z.testbit mode 5 then "r" else "-")
 (String (if Z.testbit mode 4 then "w" else "-")
 (String (if Z.testbit mode 3 then shown_char mode 5 else "-")
 (String (if Z.testbit mode 2 then "r" else "-")
 (String (if Z.testbit mode 1 then "w" else "-")
 (String (if Z.testbit mode 0 then shown_char mode 8 else "-")
  EmptyString)))))))).
Proof.
  unfold permissions, shown_char.
  change S_IRUSR with (2 ^ 8). change S_IWUSR with (2 ^ 7).
  change S_IXUSR with (2 ^ 6). change S_IRGRP with (2 ^ 5).
  change S_IWGRP with (2 ^ 4). change S_IXGRP with (2 ^ 3).
  change S_IROTH with (2 ^ 2). change S_IWOTH with (2 ^ 1).
  change S_IXOTH with (2 ^ 0). change S_ISUID with (2 ^ 11).
  change S_ISGID with (2 ^ 10). change S_ISVTX with (2 ^ 9).
  rewrite !has_testbit by lia.
  destruct (Z.testbit mode 8), (Z.testbit mode 7), (Z.testbit mode 6),
    (Z.testbit mode 5), (Z.testbit mode 4), (Z.testbit mode 3),
    (Z.testbit mode 2), (Z.testbit mode 1), (Z.testbit mode 0);
    reflexivity.
Qed.

(** C8: the permission string is nine characters long; a position whose
    permission bit is unset shows a dash; a position whose bit is set shows
    its letter of the rwxrwxrwx template, except that owner-execute shows s
    when setuid is also set, group-execute shows s when setgid is also set,
    and other-execute shows t when the sticky bit is also set; with all
    twelve bits set the string is exactly rwsrwsrwt. *)
Theorem permissions_string_C8 (mode : Z) :
  String.length (permissions mode) = 9%nat /\
  (forall i : nat, (i < 9)%nat ->
     String.get i (permissions mode) =
     Some (if Z.testbit mode (8 - Z.of_nat i)
           then shown_char mode i else "-"%char)) /\
  (forall i : nat, (i < 9)%nat -> i <> 2%nat -> i <> 5%nat -> i <> 8%nat ->
     String.get i "rwxrwxrwx" = Some (shown_char mode i)) /\
  (Z.land mode 4095 = 4095 -> permissions mode = "rwsrwsrwt").
Proof.
  rewrite permissions_closed_form. repeat split.
  - intros i Hi.
    do 9 (destruct i as [|i]; [reflexivity|]). lia.
  - intros i Hi H2 H5 H8.
    do 9 (destruct i as [|i]; [reflexivity || contradiction|]). lia.
  - intros H.
    assert (forall k, 0 <= k < 12 -> Z.testbit mode k = true) as Hb.
    { intros k Hk.
      assert (Z.testbit (Z.land mode 4095) k = true) as Hl.
      { rewrite H. change 4095 with (Z.ones 12).
        apply Z.ones_spec_low. exact Hk. }
      rewrite Z.land_spec in Hl. now apply andb_true_iff in Hl. }
    unfold shown_char. rewrite !Hb by lia. reflexivity.
Qed.

Lemma permissions_string_C8_witness :
  String.length (permissions 36863) = 9%nat /\
  String.get 2 (permissions 36863) = Some "s"%char /\
  permissions 36863 = "rwsrwsrwt".
Proof.
  destruct (permissions_string_C8 36863) as (Hlen & Hget & _ & Hall).
  split; [exact Hlen|]. split.
  - rewrite (Hget 2%nat) by lia. reflexivity.
  - apply Hall. reflexivity.
Defined.

(** ** What the renderers do to standard output *)

Lemma extends_refl (p : Proc) : extends p p.
Proof. exists "". now rewrite append_nil_r. Qed.

Lemma extends_trans (p q r : Proc) : extends p q -> extends q r -> extends p r.
Proof.
  intros [s Hs] [t Ht]. exists (s ++ t).
  now rewrite Ht, Hs, append_assoc.
Qed.

Lemma extends_printf (s : string) (p : Proc) : extends p (printf s p).
Proof. now exists s. Qed.

Lemma extends_perror (msg : string) (p : Proc) : extends p (perror msg p).
Proof. exists "". simpl. now rewrite append_nil_r. Qed.

Lemma extends_perror_all (msgs : list string) (p : Proc) :
  extends p (perror_all msgs p).
Proof. exists "". simpl. now rewrite append_nil_r. Qed.

Create HintDb out.
#[local] Hint Resolve extends_refl extends_printf extends_perror
  extends_perror_all : out.

Ltac split_out :=
  repeat match goal with
         | |- extends _ (match ?x with _ => _ end) => destruct x
         end.

Lemma extends_print_colored tail os fl path p :
  extends p (print_colored tail os fl path p).
Proof. unfold print_colored. split_out; auto with out. Qed.

Lemma extends_print_inode os fl path p : extends p (print_inode os fl path p).
Proof. unfold print_inode. split_out; auto with out. Qed.

Ltac out_step :=
  match goal with
  | |- extends ?p ?p => apply extends_refl
  | |- extends _ (printf _ _) =>
      eapply extends_trans; [|apply extends_printf]
  | |- extends _ (perror _ _) =>
      eapply extends_trans; [|apply extends_perror]
  | |- extends _ (perror_all _ _) =>
      eapply extends_trans; [|apply extends_perror_all]
  | |- extends _ (print_with_color _ _ _ _) =>
      eapply extends_trans; [|apply extends_print_colored]
  | |- extends _ (print_column_with_color _ _ _ _) =>
      eapply extends_trans; [|apply extends_print_colored]
  | |- extends _ (print_inode _ _ _ _) =>
      eapply extends_trans; [|apply extends_print_inode]
  end.

Lemma extends_print_longformat os fl path p :
  extends p (print_longformat os fl path p).
Proof.
  unfold print_longformat. split_out; cbv zeta; repeat out_step.
Qed.

Lemma extends_long_print os fl input_path filenames p :
  extends p (long_print os fl input_path filenames p).
Proof.
  revert p. induction filenames as [|name rest IH]; intros p; simpl.
  - apply extends_refl.
  - eapply extends_trans; [|apply IH].
    eapply extends_trans; [apply extends_print_inode|].
    apply extends_print_longformat.
Qed.

(** ** The first pass of the long listing *)

Lemma wrap_long_small (z : Z) : - 2 ^ 63 <= z < 2 ^ 63 -> wrap_long z = z.
Proof. intros H. unfold wrap_long. rewrite Z.mod_small; lia. Qed.

Lemma sum_sizes_cons os input_path name rest :
  sum_sizes os input_path (name :: rest) =
  size_of os (full_path_of input_path name) + sum_sizes os input_path rest.
Proof. reflexivity. Qed.

Lemma sum_sizes_nonneg os input_path names :
  Forall (stat_ok os input_path) names -> 0 <= sum_sizes os input_path names.
Proof.
  induction 1 as [|name rest (st & Hst & Hsz) _ IH]; [simpl; lia|].
  rewrite sum_sizes_cons. unfold size_of. rewrite Hst. lia.
Qed.

Lemma listed_cons fl d_name rest :
  listed fl (d_name :: rest) =
  if skips_entry fl d_name then listed fl rest else d_name :: listed fl rest.
Proof. unfold listed. simpl. now destruct (skips_entry fl d_name). Qed.

Lemma long_read_cons os fl input_path d_name rest filenames total_size :
  long_read os fl input_path (d_name :: rest) filenames total_size =
  if skips_entry fl d_name
  then long_read os fl input_path rest filenames total_size
  else if (1024 <=? List.length filenames)%nat then Read_overflow
  else
    match os_stat os (full_path_of input_path d_name) with
    | Some file_stat =>
        long_read os fl input_path rest (filenames ++ [d_name])%list
                  (wrap_long (total_size + st_size file_stat))
    | None => Read_return
    end.
Proof. reflexivity. Qed.

Lemma long_read_done os fl input_path ents :
  forall filenames acc,
    Forall (stat_ok os input_path) (listed fl ents) ->
    (List.length filenames + List.length (listed fl ents) <= 1024)%nat ->
    0 <= acc ->
    acc + sum_sizes os input_path (listed fl ents) < 2 ^ 63 ->
    long_read os fl input_path ents filenames acc =
    Read_done (filenames ++ listed fl ents)
              (acc + sum_sizes os input_path (listed fl ents)).
Proof.
  induction ents as [|d_name rest IH]; intros filenames acc Hok Hlen Hacc Hsum.
  - simpl. now rewrite app_nil_r, Z.add_0_r.
  - rewrite long_read_cons. rewrite listed_cons in *.
    destruct (skips_entry fl d_name); [now apply IH|].
    inversion Hok as [|? ? (st & Hst & Hsz) Hrest]; subst.
    pose proof (sum_sizes_nonneg _ _ _ Hrest) as Hnn.
    simpl in Hlen. rewrite sum_sizes_cons in *.
    unfold size_of in *. rewrite Hst in *.
    destruct (Nat.leb_spec 1024 (List.length filenames)) as [Hge|_]; [lia|].
    rewrite wrap_long_small by lia.
    rewrite IH; try lia; try assumption.
    + rewrite <- app_assoc. simpl. f_equal. lia.
    + rewrite length_app. simpl. lia.
Qed.

(** When [stat] fails on a listed entry the first pass returns at once. *)
Lemma long_read_return os fl input_path ents :
  forall filenames acc,
    (List.length filenames + List.length (listed fl ents) <= 1024)%nat ->
    Exists (fun name => os_stat os (full_path_of input_path name) = None)
           (listed fl ents) ->
    long_read os fl input_path ents filenames acc = Read_return.
Proof.
  induction ents as [|d_name rest IH]; intros filenames acc Hlen Hex.
  - inversion Hex.
  - rewrite long_read_cons. rewrite listed_cons in *.
    destruct (skips_entry fl d_name); [now apply IH|].
    simpl in Hlen.
    destruct (Nat.leb_spec 1024 (List.length filenames)) as [Hge|_]; [lia|].
    destruct (os_stat os (full_path_of input_path d_name)) eqn:Hst.
    + apply IH.
      * rewrite length_app. simpl. lia.
      * inversion Hex; subst; [congruence|assumption].
    + reflexivity.
Qed.

(** C9, as the code has it: when the long listing of a directory gets
    through its first pass (no more than 1024 listed entries, [stat]
    succeeds on each), it writes, before any entry, the line [total N]
    where N is the floor of S / 1024 and S is the sum of the sizes that
    [stat], which follows symbolic links, reports for the listed entries,
    provided these sizes are not negative and S is less than 2^63, so that
    it fits the [long] it is added up in. *)
Theorem total_header_C9 os fl input_path ents p :
  os_opendir os input_path = Some ents ->
  (List.length (listed fl ents) <= 1024)%nat ->
  Forall (stat_ok os input_path) (listed fl ents) ->
  sum_sizes os input_path (listed fl ents) < 2 ^ 63 ->
  exists p' entries_text,
    list_directory_long_format os fl input_path p = Some p' /\
    p_stdout p' =
      p_stdout p
      ++ ("total " ++ dec (sum_sizes os input_path (listed fl ents) / 1024) ++ NL)
      ++ entries_text.
Proof.
  intros Hdir Hlen Hok Hsum.
  pose proof (sum_sizes_nonneg _ _ _ Hok) as Hnn.
  unfold list_directory_long_format. rewrite Hdir.
  rewrite (long_read_done os fl input_path ents [] 0) by (simpl; auto; lia).
  simpl app. rewrite Z.add_0_l.
  destruct (long_sort os fl (listed fl ents)) as [sorted diags].
  match goal with
  | |- exists _ _, Some (long_print _ _ _ _ ?q) = _ /\ _ =>
      destruct (extends_long_print os fl input_path sorted q) as [text Ht]
  end.
  eexists; exists text. split; [reflexivity|].
  rewrite Ht. simpl. unfold total_line.
  rewrite Z.quot_div_nonneg by lia.
  now rewrite append_assoc.
Qed.

Lemma total_header_C9_witness :
  exists p' entries_text,
    list_directory_long_format Fixture.pub_os (parse_options ["l"%char])
                               "/pub" proc0 = Some p' /\
    p_stdout p' = "" ++ ("total " ++ dec (3000 / 1024) ++ NL) ++ entries_text.
Proof.
  apply (total_header_C9 Fixture.pub_os (parse_options ["l"%char]) "/pub"
                         ["."; ".."; "a"; "b"] proc0).
  - reflexivity.
  - simpl. lia.
  - repeat constructor; eexists; (split; [reflexivity|simpl; lia]).
  - reflexivity.
Defined.

(** C9 as stated fails in two ways.  The sizes added up are those of
    [stat], not those the listing shows: in [/lnk] the only listed entry is
    a symbolic link shown with its own 7 bytes, the floor of 7 / 1024 is
    0, and the header says 10, after the 10240 bytes of the link's target.
    And the sum is kept in a [long]: in [/huge] three files of 2^62 bytes
    add up to more than it holds, the floor of the sum over 1024 is
    13510798882111488, and the header shows a negative number. *)
Lemma total_header_differs_C9 :
  let fl := parse_options ["l"%char] in
  (first_line_is "total 10"
     (list_directory_long_format Scenes.link_os fl "/lnk" proc0) /\
   sum_shown_sizes Scenes.link_os "/lnk" (listed fl ["."; ".."; "link"])
   / 1024 = 0) /\
  (first_line_is "total -4503599627370496"
     (list_directory_long_format Scenes.huge_os fl "/huge" proc0) /\
   sum_shown_sizes Scenes.huge_os "/huge"
                   (listed fl ["."; ".."; "x"; "y"; "z"])
   / 1024 = 13510798882111488 /\
   sum_sizes Scenes.huge_os "/huge" (listed fl ["."; ".."; "x"; "y"; "z"])
   / 1024 = 13510798882111488).
Proof. vm_compute. repeat split. Qed.

(** ** The read loops and the hidden-file test *)

Lemma skips_entry_iff fl d_name :
  skips_entry fl d_name = true <-> hidden_and_filtered fl d_name.
Proof.
  unfold skips_entry, hidden_and_filtered.
  rewrite !andb_true_iff, !negb_true_iff.
  destruct (Ascii.eqb_spec (first_char d_name) "."); intuition congruence.
Qed.

Lemma listed_in fl ents d_name :
  In d_name (listed fl ents) <->
  In d_name ents /\ ~ hidden_and_filtered fl d_name.
Proof.
  unfold listed. rewrite filter_In, <- skips_entry_iff, negb_true_iff.
  destruct (skips_entry fl d_name); intuition congruence.
Qed.

Lemma listed_no_sort fl ents :
  is_no_sort_enabled fl = true -> listed fl ents = ents.
Proof.
  intros H. induction ents as [|d rest IH]; [reflexivity|].
  rewrite listed_cons, IH. unfold skips_entry. rewrite H.
  now rewrite andb_false_r.
Qed.

Lemma do_ls_read_cons fl d_name rest file_entries :
  do_ls_read fl (d_name :: rest) file_entries =
  if skips_entry fl d_name then do_ls_read fl rest file_entries
  else if (MAX_ENTRIES <=? List.length file_entries)%nat then None
  else do_ls_read fl rest (file_entries ++ [d_name])%list.
Proof. reflexivity. Qed.

Lemma do_ls_read_some fl ents :
  forall file_entries,
    (List.length file_entries + List.length (listed fl ents) <= MAX_ENTRIES)%nat ->
    do_ls_read fl ents file_entries = Some (file_entries ++ listed fl ents)%list.
Proof.
  induction ents as [|d_name rest IH]; intros file_entries Hlen.
  - simpl. now rewrite app_nil_r.
  - rewrite do_ls_read_cons. rewrite listed_cons in *.
    destruct (skips_entry fl d_name); [now apply IH|].
    simpl in Hlen.
    destruct (Nat.leb_spec MAX_ENTRIES (List.length file_entries)); [lia|].
    rewrite IH.
    + now rewrite <- app_assoc.
    + rewrite length_app. simpl. lia.
Qed.

Lemma long_read_names os fl input_path ents :
  forall filenames acc,
    Forall (fun name => os_stat os (full_path_of input_path name) <> None)
           (listed fl ents) ->
    (List.length filenames + List.length (listed fl ents) <= 1024)%nat ->
    exists total_size,
      long_read os fl input_path ents filenames acc =
      Read_done (filenames ++ listed fl ents) total_size.
Proof.
  induction ents as [|d_name rest IH]; intros filenames acc Hok Hlen.
  - exists acc. simpl. now rewrite app_nil_r.
  - rewrite long_read_cons. rewrite listed_cons in *.
    destruct (skips_entry fl d_name); [now apply IH|].
    inversion Hok as [|? ? Hst Hrest]; subst. simpl in Hlen.
    destruct (Nat.leb_spec 1024 (List.length filenames)); [lia|].
    destruct (os_stat os (full_path_of input_path d_name)) as [st|];
      [|contradiction].
    destruct (IH (filenames ++ [d_name])%list (wrap_long (acc + st_size st)))
      as [total Ht]; [assumption|rewrite length_app; simpl; lia|].
    exists total. rewrite Ht. now rewrite <- app_assoc.
Qed.

Lemma do_ls_sort_perm os fl file_entries :
  Permutation file_entries (fst (do_ls_sort os fl file_entries)).
Proof.
  unfold do_ls_sort.
  repeat match goal with
         | |- context [if ?b then _ else _] => destruct b
         end; try apply qsort_perm. apply Permutation_refl.
Qed.

Lemma long_sort_perm os fl filenames :
  Permutation filenames (fst (long_sort os fl filenames)).
Proof.
  unfold long_sort.
  repeat match goal with
         | |- context [if ?b then _ else _] => destruct b
         end; try apply qsort_perm. apply Permutation_refl.
Qed.

(** The rendering order is what [do_ls] hands, entry by entry, to the
    renderer. *)
Lemma do_ls_renders_order os fl input_path order p :
  do_ls_order os fl input_path = Some order ->
  exists diags,
    do_ls os fl input_path p =
    Some (final_newline fl
            (do_ls_print os fl input_path order
               (perror_all diags (closedir (dir_opened p))))).
Proof.
  unfold do_ls_order, do_ls.
  destruct (os_opendir os input_path) as [ents|]; [|discriminate].
  destruct (do_ls_read fl ents []) as [file_entries|]; [|discriminate].
  simpl. intros [= <-].
  destruct (do_ls_sort os fl file_entries) as [sorted diags].
  now exists diags.
Qed.

Lemma long_renders_order os fl input_path order p :
  long_order os fl input_path = Some order ->
  exists diags total_size,
    list_directory_long_format os fl input_path p =
    Some (long_print os fl input_path order
            (printf (total_line total_size)
               (perror_all diags (closedir (dir_opened p))))).
Proof.
  unfold long_order, list_directory_long_format.
  destruct (os_opendir os input_path) as [ents|]; [|discriminate].
  destruct (long_read os fl input_path ents [] 0)
    as [filenames total_size| |]; try discriminate.
  intros [= <-].
  destruct (long_sort os fl filenames) as [sorted diags].
  now exists diags, total_size.
Qed.

(** C7: among the entries a directory yields, the listing leaves out
    exactly those whose name starts with a dot while both show-hidden and
    no-sort are unset; with no-sort set every entry, the dot entries
    included, is listed.  This holds for [do_ls] while the entries fit its
    array, and for the long listing while they fit its array and [stat]
    succeeds on each of them. *)
Theorem hidden_filter_C7 os fl input_path ents :
  os_opendir os input_path = Some ents ->
  ((List.length (listed fl ents) <= MAX_ENTRIES)%nat ->
   exists order,
     do_ls_order os fl input_path = Some order /\
     (forall d_name, In d_name ents ->
        (~ In d_name order <-> hidden_and_filtered fl d_name)) /\
     (is_no_sort_enabled fl = true -> order = ents)) /\
  ((List.length (listed fl ents) <= 1024)%nat ->
   Forall (fun name => os_stat os (full_path_of input_path name) <> None)
          (listed fl ents) ->
   exists order,
     long_order os fl input_path = Some order /\
     (forall d_name, In d_name ents ->
        (~ In d_name order <-> hidden_and_filtered fl d_name)) /\
     (is_no_sort_enabled fl = true -> order = ents)).
Proof.
  intros Hdir.
  assert (forall order d_name,
            Permutation (listed fl ents) order -> In d_name ents ->
            (~ In d_name order <-> hidden_and_filtered fl d_name)) as Hiff.
  { intros order d_name Hp Hin. split.
    - intros Hnot.
      destruct (skips_entry fl d_name) eqn:Hs;
        [now apply skips_entry_iff|].
      exfalso. apply Hnot. apply (Permutation_in _ Hp).
      apply listed_in. split; [exact Hin|].
      rewrite <- skips_entry_iff. congruence.
    - intros Hh Hi. apply Permutation_sym in Hp.
      apply (Permutation_in _ Hp), listed_in in Hi. tauto. }
  split.
  - intros Hlen. unfold do_ls_order. rewrite Hdir.
    rewrite (do_ls_read_some fl ents []) by exact Hlen. simpl.
    eexists. split; [reflexivity|]. split.
    + intros d_name. apply Hiff, do_ls_sort_perm.
    + intros Hns. unfold do_ls_sort. rewrite Hns, !andb_false_r. simpl.
      now apply listed_no_sort.
  - intros Hlen Hok. unfold long_order. rewrite Hdir.
    destruct (long_read_names os fl input_path ents [] 0 Hok Hlen)
      as [total Ht].
    rewrite Ht. simpl. eexists. split; [reflexivity|]. split.
    + intros d_name. apply Hiff, long_sort_perm.
    + intros Hns. unfold long_sort. rewrite Hns, !andb_false_r. simpl.
      now apply listed_no_sort.
Qed.

Lemma hidden_filter_C7_witness :
  (exists order,
     do_ls_order Fixture.home_os no_flags "/home/u" = Some order /\
     (forall d_name, In d_name [".."; "."; "b"; "a"] ->
        (~ In d_name order <-> hidden_and_filtered no_flags d_name)) /\
     (is_no_sort_enabled no_flags = true -> order = [".."; "."; "b"; "a"])) /\
  (exists order,
     long_order Fixture.home_os no_flags "/home/u" = Some order /\
     (forall d_name, In d_name [".."; "."; "b"; "a"] ->
        (~ In d_name order <-> hidden_and_filtered no_flags d_name)) /\
     (is_no_sort_enabled no_flags = true -> order = [".."; "."; "b"; "a"])).
Proof.
  destruct (hidden_filter_C7 Fixture.home_os no_flags "/home/u"
              [".."; "."; "b"; "a"] eq_refl) as [Hshort Hlong].
  split.
  - apply Hshort. vm_compute. lia.
  - apply Hlong.
    + vm_compute. lia.
    + repeat constructor; discriminate.
Defined.

(** ** The time comparators *)

(** C3, as the code has it: when [stat] succeeds on both names, both time
    comparators put the entry with the later time stamp first; on equal
    access times [compare_by_access_time] falls back to [strcmp] of the
    names, while on equal change times [compare_by_ctime] answers 0 and
    does not look at the names. *)
Theorem time_comparators_C3 os a b file_stat1 file_stat2 :
  os_stat os a = Some file_stat1 ->
  os_stat os b = Some file_stat2 ->
  (st_atime file_stat1 > st_atime file_stat2 ->
     fst (compare_by_access_time os a b) < 0) /\
  (st_atime file_stat1 < st_atime file_stat2 ->
     fst (compare_by_access_time os a b) > 0) /\
  (st_atime file_stat1 = st_atime file_stat2 ->
     fst (compare_by_access_time os a b) = strcmp a b) /\
  (st_ctime file_stat1 > st_ctime file_stat2 ->
     fst (compare_by_ctime os a b) < 0) /\
  (st_ctime file_stat1 < st_ctime file_stat2 ->
     fst (compare_by_ctime os a b) > 0) /\
  (st_ctime file_stat1 = st_ctime file_stat2 ->
     fst (compare_by_ctime os a b) = 0).
Proof.
  intros H1 H2. unfold compare_by_access_time, compare_by_ctime.
  rewrite H1, H2.
  destruct (Z.ltb_spec (st_atime file_stat1) (st_atime file_stat2));
  destruct (Z.gtb_spec (st_atime file_stat1) (st_atime file_stat2));
  destruct (Z.ltb_spec (st_ctime file_stat1) (st_ctime file_stat2));
  destruct (Z.gtb_spec (st_ctime file_stat1) (st_ctime file_stat2));
  simpl; repeat split; intros; try lia.
Qed.

Lemma time_comparators_C3_witness :
  fst (compare_by_access_time Fixture.home_os "a" "b") < 0 /\
  fst (compare_by_access_time Fixture.home_os "b" "a") > 0 /\
  fst (compare_by_ctime Fixture.home_os "b" "a") = 0.
Proof.
  pose proof (time_comparators_C3 Fixture.home_os "a" "b"
                (Fixture.file 11 10 200 100 150)
                (Fixture.file 12 20 100 200 150) eq_refl eq_refl)
    as (Hnewer & _).
  pose proof (time_comparators_C3 Fixture.home_os "b" "a"
                (Fixture.file 12 20 100 200 150)
                (Fixture.file 11 10 200 100 150) eq_refl eq_refl)
    as (_ & Holder & _ & _ & _ & Hsame).
  split; [apply Hnewer; simpl; lia|].
  split; [apply Holder; simpl; lia|].
  apply Hsame. reflexivity.
Defined.

(** C3 as stated fails for the change-time sort: two entries with the same
    change time are not put in name order.  In [/home/u], [b] and [a] have
    equal change times, [b] is the greater name, yet the comparator does
    not place it after [a], and [myls -c] lists [b] before [a]. *)
Lemma ctime_ties_ignore_names_C3 :
  ~ (forall os a b file_stat1 file_stat2,
       os_stat os a = Some file_stat1 ->
       os_stat os b = Some file_stat2 ->
       st_ctime file_stat1 = st_ctime file_stat2 ->
       strcmp a b > 0 ->
       fst (compare_by_ctime os a b) > 0) /\
  do_ls_order Fixture.home_os (parse_options ["c"%char]) "/home/u"
  = Some ["b"; "a"].
Proof.
  split; [|reflexivity].
  intros H.
  specialize (H Fixture.home_os "b" "a" _ _ eq_refl eq_refl eq_refl eq_refl).
  vm_compute in H. discriminate.
Qed.

(** ** The case-insensitive default of the long listing *)

Lemma case_insensitive_total a b :
  cmp_le compare_case_insensitive a b \/ cmp_le compare_case_insensitive b a.
Proof. unfold cmp_le. simpl. apply strcmp_total. Qed.

Lemma case_insensitive_trans a b c :
  cmp_le compare_case_insensitive a b ->
  cmp_le compare_case_insensitive b c ->
  cmp_le compare_case_insensitive a c.
Proof. unfold cmp_le. simpl. apply strcmp_trans. Qed.

Lemma case_insensitive_sorted l :
  StronglySorted case_insensitive_le (fst (qsort compare_case_insensitive l)).
Proof.
  apply (qsort_sorted compare_case_insensitive (fun _ => True)).
  - intros x y _ _. apply case_insensitive_total.
  - intros x y z _ _ _. apply case_insensitive_trans.
  - apply Forall_forall. trivial.
Qed.

(** Every enumeration order of three distinct names. *)
Lemma permutation_of_three (x y z : string) (l : list string) :
  Permutation l [x; y; z] ->
  l = [x; y; z] \/ l = [x; z; y] \/ l = [y; x; z] \/
  l = [y; z; x] \/ l = [z; x; y] \/ l = [z; y; x].
Proof.
  intros Hp.
  destruct (Permutation_vs_cons_inv Hp) as (l1 & l2 & ->).
  apply Permutation_sym, Permutation_cons_app_inv in Hp.
  destruct l1 as [|p [|q [|r l1]]]; simpl in *.
  - apply Permutation_length_2_inv in Hp as [->| ->]; auto.
  - pose proof (Permutation_length Hp) as Hl.
    destruct l2 as [|r [|]]; simpl in Hl; try discriminate.
    apply Permutation_length_2_inv in Hp as [[= -> ->]|[= -> ->]]; auto 7.
  - pose proof (Permutation_length Hp) as Hl.
    destruct l2; simpl in Hl; try discriminate.
    apply Permutation_length_2_inv in Hp as [[= -> ->]|[= -> ->]]; auto 7.
  - apply Permutation_length in Hp. simpl in Hp.
    rewrite length_app in Hp. simpl in Hp. lia.
Qed.

(** The order of the three names does not depend on how the sort goes
    about it: it is the only arrangement of them that is in
    case-insensitive order. *)
Lemma fruit_order_unique (l : list string) :
  Permutation l ["Banana"; "apple"; "Cherry"] ->
  StronglySorted case_insensitive_le l ->
  l = ["apple"; "Banana"; "Cherry"].
Proof.
  intros Hp Hs. apply permutation_of_three in Hp.
  destruct Hp as [->|[->|[->|[->|[->| ->]]]]]; try reflexivity; exfalso;
    repeat match goal with
           | H : StronglySorted _ (_ :: _) |- _ =>
               apply StronglySorted_inv in H; destruct H
           | H : Forall _ (_ :: _) |- _ => inversion H; clear H; subst
           end;
    match goal with
    | H : case_insensitive_le "Banana" "apple" |- _ => apply H; reflexivity
    | H : case_insensitive_le "Cherry" "apple" |- _ => apply H; reflexivity
    | H : case_insensitive_le "Cherry" "Banana" |- _ => apply H; reflexivity
    end.
Qed.

(** C5, as the code has it: with show-hidden unset, no time flag set and
    sorting not disabled, the long listing renders the listed entries
    case-insensitively, that is in the order the sort gives with the
    comparator that folds both names to lower case and has no rule for
    hidden names: every entry, folded to lower case, compares no greater
    than every later one; when the listed entries are Banana, apple and
    Cherry, in whatever order the directory yields them, the order is
    apple, Banana, Cherry. *)
Theorem long_default_order_C5 os fl input_path ents :
  is_hidden_files_enabled fl = false ->
  is_sort_by_time_enabled fl = false ->
  is_sort_by_access_time_enabled fl = false ->
  is_ctime_option_enabled fl = false ->
  is_no_sort_enabled fl = false ->
  os_opendir os input_path = Some ents ->
  (List.length (listed fl ents) <= 1024)%nat ->
  Forall (fun name => os_stat os (full_path_of input_path name) <> None)
         (listed fl ents) ->
  exists order,
    long_order os fl input_path = Some order /\
    order = fst (qsort compare_case_insensitive (listed fl ents)) /\
    Permutation (listed fl ents) order /\
    StronglySorted case_insensitive_le order /\
    (Permutation (listed fl ents) ["Banana"; "apple"; "Cherry"] ->
     order = ["apple"; "Banana"; "Cherry"]).
Proof.
  intros Hhid Htime _ _ Hns Hdir Hlen Hok.
  unfold long_order. rewrite Hdir.
  destruct (long_read_names os fl input_path ents [] 0 Hok Hlen) as [total Ht].
  rewrite Ht. simpl app. unfold long_sort. rewrite Hhid, Htime, Hns. simpl.
  eexists. split; [reflexivity|]. split; [reflexivity|].
  split; [apply qsort_perm|]. split; [apply case_insensitive_sorted|].
  intros Hp. apply permutation_of_three in Hp.
  destruct Hp as [->|[->|[->|[->|[->| ->]]]]]; reflexivity.
Qed.

Lemma long_default_order_C5_witness :
  exists order,
    long_order Fixture.fruit_os (parse_options ["l"%char]) "/fruit"
    = Some order /\
    order = ["apple"; "Banana"; "Cherry"].
Proof.
  destruct (long_default_order_C5 Fixture.fruit_os (parse_options ["l"%char])
              "/fruit" ["."; ".."; "Banana"; "apple"; "Cherry"]
              eq_refl eq_refl eq_refl eq_refl eq_refl eq_refl)
    as (order & Horder & _ & _ & _ & Hfruit).
  - vm_compute. lia.
  - repeat constructor; discriminate.
  - exists order. split; [exact Horder|].
    apply Hfruit. apply Permutation_refl.
Defined.

(** C5 as stated fails when show-hidden is set: [myls -la] sets neither a
    time flag nor no-sort, yet the long listing of [/fruit] is ordered by
    the case-sensitive hidden-first comparator, and Cherry is rendered
    before apple although it is the greater of the two once folded to
    lower case. *)
Lemma long_default_with_hidden_C5 :
  let fl := parse_options ["l"%char; "a"%char] in
  is_sort_by_time_enabled fl = false /\
  is_sort_by_access_time_enabled fl = false /\
  is_ctime_option_enabled fl = false /\
  is_no_sort_enabled fl = false /\
  long_order Fixture.fruit_os fl "/fruit"
  = Some ["."; ".."; "Banana"; "Cherry"; "apple"] /\
  ~ case_insensitive_le "Cherry" "apple".
Proof.
  repeat split. vm_compute. intros H. apply H. reflexivity.
Qed.

(** ** Which paths the time comparators look up *)

Lemma qsort_insert_ext (cmp cmp' : cmp_fn) x l :
  (forall y, In y l -> cmp x y = cmp' x y) ->
  qsort_insert cmp x l = qsort_insert cmp' x l.
Proof.
  induction l as [|y r IH]; intros H; simpl; [reflexivity|].
  rewrite <- (H y) by now left.
  destruct (cmp x y) as [c e]. destruct (c <=? 0); [reflexivity|].
  rewrite IH; [reflexivity|]. intros z Hz. apply H. now right.
Qed.

Lemma qsort_ext (cmp cmp' : cmp_fn) l :
  (forall x y, In x l -> In y l -> cmp x y = cmp' x y) ->
  qsort cmp l = qsort cmp' l.
Proof.
  induction l as [|x r IH]; intros H; simpl; [reflexivity|].
  rewrite <- IH by (intros; apply H; now right).
  pose proof (qsort_in cmp r) as Hin.
  destruct (qsort cmp r) as [r' e]. simpl in Hin.
  rewrite (qsort_insert_ext cmp cmp' x r'); [reflexivity|].
  intros y Hy. apply H; [now left|]. right. now apply Hin.
Qed.

Lemma time_cmp_ext os os' fl a b :
  os_stat os' a = os_stat os a ->
  os_stat os' b = os_stat os b ->
  time_cmp os' fl a b = time_cmp os fl a b.
Proof.
  intros Ha Hb. unfold time_cmp.
  destruct (is_sort_by_time_enabled fl || is_sort_by_access_time_enabled fl);
    unfold compare_by_access_time, compare_by_ctime; now rewrite Ha, Hb.
Qed.

Lemma do_ls_sort_time os fl file_entries :
  (is_sort_by_time_enabled fl || is_sort_by_access_time_enabled fl
   || is_ctime_option_enabled fl) = true ->
  is_no_sort_enabled fl = false ->
  do_ls_sort os fl file_entries = qsort (time_cmp os fl) file_entries.
Proof.
  intros Ht Hns. unfold do_ls_sort, time_cmp. rewrite Hns. simpl.
  rewrite !andb_true_r.
  destruct (is_sort_by_time_enabled fl || is_sort_by_access_time_enabled fl);
    [reflexivity|].
  simpl in Ht. now rewrite Ht.
Qed.

(** C10: when a time flag is set and sorting is not disabled, [do_ls]
    sorts the bare entry names with a comparator that calls [stat] on
    exactly those names.  A name that [stat] cannot resolve as given (it
    does not exist in the working directory) sends the comparison into the
    stat-failure branch: answer 1 with a diagnostic when it is the first
    argument, answer -1 with a diagnostic when it is the second and the
    first resolves.  The rendering order is the same on any two systems
    that agree on [stat] of the bare names, whatever the time stamps found
    under the listed directory's path are. *)
Theorem bare_name_stat_C10 os fl input_path ents :
  os_opendir os input_path = Some ents ->
  (List.length (listed fl ents) <= MAX_ENTRIES)%nat ->
  (is_sort_by_time_enabled fl || is_sort_by_access_time_enabled fl
   || is_ctime_option_enabled fl) = true ->
  is_no_sort_enabled fl = false ->
  do_ls_order os fl input_path
  = Some (fst (qsort (time_cmp os fl) (listed fl ents))) /\
  (forall a b, os_stat os a = None ->
     compare_by_access_time os a b = (1, ["stat failed for file_stat1"]) /\
     compare_by_ctime os a b = (1, ["stat failed for file_path1"])) /\
  (forall a b, os_stat os a <> None -> os_stat os b = None ->
     compare_by_access_time os a b = (-1, ["stat failed for file_stat2"]) /\
     compare_by_ctime os a b = (-1, ["stat failed for file_path2"])) /\
  (forall os',
     os_opendir os' input_path = Some ents ->
     (forall name, In name ents -> os_stat os' name = os_stat os name) ->
     do_ls_order os' fl input_path = do_ls_order os fl input_path).
Proof.
  intros Hdir Hlen Ht Hns.
  assert (forall o, os_opendir o input_path = Some ents ->
            do_ls_order o fl input_path
            = Some (fst (qsort (time_cmp o fl) (listed fl ents)))) as Horder.
  { intros o Ho. unfold do_ls_order. rewrite Ho.
    rewrite (do_ls_read_some fl ents []) by exact Hlen. simpl.
    now rewrite do_ls_sort_time. }
  split; [now apply Horder|]. split; [|split].
  - intros a b Ha. unfold compare_by_access_time, compare_by_ctime.
    rewrite Ha. split; reflexivity.
  - intros a b Ha Hb. unfold compare_by_access_time, compare_by_ctime.
    destruct (os_stat os a); [|contradiction]. rewrite Hb. split; reflexivity.
  - intros os' Hdir' Hagree.
    rewrite (Horder os Hdir), (Horder os' Hdir'). do 2 f_equal.
    apply qsort_ext. intros x y Hx Hy.
    apply listed_in in Hx, Hy.
    apply time_cmp_ext; apply Hagree; tauto.
Qed.

Lemma bare_name_stat_C10_witness :
  let fl := parse_options ["t"%char] in
  do_ls_order Fixture.pub_os fl "/pub" = Some ["b"; "a"] /\
  compare_by_access_time Fixture.pub_os "a" "b"
  = (1, ["stat failed for file_stat1"]) /\
  option_map st_atime (os_stat Fixture.pub_os (full_path_of "/pub" "a")) = Some 6 /\
  option_map st_atime (os_stat Fixture.pub_os (full_path_of "/pub" "b")) = Some 5.
Proof.
  intros fl.
  destruct (bare_name_stat_C10 Fixture.pub_os fl "/pub" ["."; ".."; "a"; "b"])
    as (Horder & Hfirst & _ & _).
  - reflexivity.
  - vm_compute. lia.
  - reflexivity.
  - reflexivity.
  - split; [rewrite Horder; reflexivity|].
    split; [apply (Hfirst "a" "b"); reflexivity|].
    split; reflexivity.
Defined.

(** ** Directory handles *)

Lemma same_dirs_refl p : same_dirs p p.
Proof. reflexivity. Qed.

Lemma same_dirs_trans p q r : same_dirs p q -> same_dirs q r -> same_dirs p r.
Proof. unfold same_dirs. congruence. Qed.

Lemma same_dirs_print_colored tail os fl path p :
  same_dirs p (print_colored tail os fl path p).
Proof.
  unfold print_colored.
  repeat match goal with
         | |- same_dirs _ (match ?x with _ => _ end) => destruct x
         end; reflexivity.
Qed.

Lemma same_dirs_print_inode os fl path p :
  same_dirs p (print_inode os fl path p).
Proof.
  unfold print_inode.
  repeat match goal with
         | |- same_dirs _ (match ?x with _ => _ end) => destruct x
         end; reflexivity.
Qed.

Lemma same_dirs_print_entry os fl path p :
  same_dirs p (print_entry os fl path p).
Proof.
  unfold print_entry. destruct (is_column_output_enabled fl);
    apply same_dirs_print_colored.
Qed.

Lemma same_dirs_do_ls_print os fl input_path file_entries p :
  same_dirs p (do_ls_print os fl input_path file_entries p).
Proof.
  revert p. induction file_entries as [|name rest IH]; intros p; simpl.
  - reflexivity.
  - eapply same_dirs_trans; [|apply IH].
    eapply same_dirs_trans; [apply same_dirs_print_inode|].
    apply same_dirs_print_entry.
Qed.

Lemma same_dirs_final_newline fl p : same_dirs p (final_newline fl p).
Proof. unfold final_newline. now destruct (is_column_output_enabled fl). Qed.

(** [do_ls] never returns with the handle it opened still open. *)
Lemma do_ls_closes_dir os fl input_path p p' :
  do_ls os fl input_path p = Some p' -> same_dirs p p'.
Proof.
  unfold do_ls.
  destruct (os_opendir os input_path) as [ents|].
  - destruct (do_ls_read fl ents []) as [file_entries|]; [|discriminate].
    destruct (do_ls_sort os fl file_entries) as [sorted diags].
    intros [= <-].
    eapply same_dirs_trans; [|apply same_dirs_final_newline].
    eapply same_dirs_trans; [|apply same_dirs_do_ls_print].
    reflexivity.
  - destruct (os_stat os input_path) as [file_stat|]; [|now intros [= <-]].
    destruct (S_ISREG (st_mode file_stat)); simpl; intros [= <-];
      [|reflexivity].
    eapply same_dirs_trans; [|apply same_dirs_final_newline].
    eapply same_dirs_trans; [apply same_dirs_print_inode|].
    apply same_dirs_print_entry.
Qed.

Lemma same_dirs_print_longformat os fl path p :
  same_dirs p (print_longformat os fl path p).
Proof.
  unfold print_longformat.
  repeat match goal with
         | |- same_dirs _ (match ?x with _ => _ end) => destruct x
         end; try reflexivity.
  cbv zeta.
  eapply same_dirs_trans;
    [|exact (same_dirs_refl (printf NL _))].
  unfold same_dirs. simpl.
  exact (same_dirs_print_colored "   " os fl path _).
Qed.

Lemma same_dirs_long_print os fl input_path filenames p :
  same_dirs p (long_print os fl input_path filenames p).
Proof.
  revert p. induction filenames as [|name rest IH]; intros p; simpl.
  - reflexivity.
  - eapply same_dirs_trans; [|apply IH].
    eapply same_dirs_trans; [apply same_dirs_print_inode|].
    apply same_dirs_print_longformat.
Qed.

(** The long listing closes its handle whenever its first pass runs to
    the end of the directory. *)
Lemma long_listing_closes_dir_when_read os fl input_path ents p :
  os_opendir os input_path = Some ents ->
  (List.length (listed fl ents) <= 1024)%nat ->
  Forall (fun name => os_stat os (full_path_of input_path name) <> None)
         (listed fl ents) ->
  exists p',
    list_directory_long_format os fl input_path p = Some p' /\
    same_dirs p p'.
Proof.
  intros Hdir Hlen Hok. unfold list_directory_long_format. rewrite Hdir.
  destruct (long_read_names os fl input_path ents [] 0 Hok Hlen) as [total Ht].
  rewrite Ht.
  destruct (long_sort os fl ([] ++ listed fl ents)) as [sorted diags].
  eexists. split; [reflexivity|].
  eapply same_dirs_trans; [|apply same_dirs_long_print]. reflexivity.
Qed.

(** In the second pass a failed [lstat] costs only the entry it fails on:
    the formatter writes its diagnostic and the loop goes on to the
    siblings. *)
Lemma long_print_skips_failed_lstat os fl input_path name rest p :
  os_lstat os (snprintf 1024 (input_path ++ "/" ++ name)) = None ->
  long_print os fl input_path (name :: rest) p
  = long_print os fl input_path rest (perror "lstat failed" p).
Proof.
  intros Hl.
  change (long_print os fl input_path (name :: rest) p)
    with (long_print os fl input_path rest
            (print_longformat os fl (snprintf 1024 (input_path ++ "/" ++ name))
               (print_inode os fl (snprintf 1024 (input_path ++ "/" ++ name))
                  p))).
  unfold print_inode, print_longformat. rewrite Hl.
  now destruct (is_inode_enabled fl).
Qed.

(** ** Where the code departs from its specification *)

(** C2 (the code departs): in the long listing, a failed [stat] on one
    listed entry ends the whole listing.  Nothing is written to standard
    output, neither the total line nor any sibling, and the only trace is
    the diagnostic. *)
Theorem stat_failure_aborts_long_listing_C2 os fl input_path ents p :
  os_opendir os input_path = Some ents ->
  (List.length (listed fl ents) <= 1024)%nat ->
  Exists (fun name => os_stat os (full_path_of input_path name) = None)
         (listed fl ents) ->
  exists p',
    list_directory_long_format os fl input_path p = Some p' /\
    p_stdout p' = p_stdout p /\
    p_stderr p' = (p_stderr p ++ ["stat failed"])%list.
Proof.
  intros Hdir Hlen Hex. unfold list_directory_long_format. rewrite Hdir.
  rewrite (long_read_return os fl input_path ents [] 0) by assumption.
  eexists. split; [reflexivity|]. split; reflexivity.
Qed.

Lemma stat_failure_aborts_long_listing_C2_witness :
  exists p',
    list_directory_long_format Fixture.srv_os (parse_options ["l"%char])
                               "/srv" proc0 = Some p' /\
    p_stdout p' = "" /\
    p_stderr p' = ["stat failed"].
Proof.
  apply (stat_failure_aborts_long_listing_C2 Fixture.srv_os
           (parse_options ["l"%char]) "/srv"
           ["."; ".."; "a"; "gone"; "b"] proc0).
  - reflexivity.
  - vm_compute. lia.
  - apply Exists_cons_tl, Exists_cons_hd. reflexivity.
Defined.

(** C6 (the code departs): when [stat] fails on a listed entry, the long
    listing returns from inside its read loop and the directory handle it
    opened is still open. *)
Theorem stat_failure_leaks_handle_C6 os fl input_path ents p :
  os_opendir os input_path = Some ents ->
  (List.length (listed fl ents) <= 1024)%nat ->
  Exists (fun name => os_stat os (full_path_of input_path name) = None)
         (listed fl ents) ->
  exists p',
    list_directory_long_format os fl input_path p = Some p' /\
    p_open_dirs p' = S (p_open_dirs p).
Proof.
  intros Hdir Hlen Hex. unfold list_directory_long_format. rewrite Hdir.
  rewrite (long_read_return os fl input_path ents [] 0) by assumption.
  eexists. split; reflexivity.
Qed.

Lemma stat_failure_leaks_handle_C6_witness :
  exists p',
    list_directory_long_format Fixture.srv_os (parse_options ["l"%char])
                               "/srv" proc0 = Some p' /\
    p_open_dirs p' = 1%nat.
Proof.
  apply (stat_failure_leaks_handle_C6 Fixture.srv_os
           (parse_options ["l"%char]) "/srv"
           ["."; ".."; "a"; "gone"; "b"] proc0).
  - reflexivity.
  - vm_compute. lia.
  - apply Exists_cons_tl, Exists_cons_hd. reflexivity.
Defined.

(** C1 (the code departs): [-t] sets the access-time flag along with its
    own, and the sort that follows compares access times.  In [/home/u],
    [a] was modified before [b] but read after it: [myls -t] lists [a]
    before [b], oldest modification first. *)
Theorem mtime_sort_uses_atime_C1 :
  let fl := parse_options ["t"%char] in
  (forall os file_entries,
     do_ls_sort os fl file_entries
     = qsort (compare_by_access_time os) file_entries) /\
  is_sort_by_time_enabled fl = true /\
  is_sort_by_access_time_enabled fl = true /\
  is_no_sort_enabled fl = false /\
  do_ls_order Fixture.home_os fl "/home/u" = Some ["a"; "b"] /\
  do_ls Fixture.home_os fl "/home/u" proc0
  = Some (mk_Proc ("a   b   " ++ NL) [] 0) /\
  option_map st_mtime (os_stat Fixture.home_os (full_path_of "/home/u" "a"))
  = Some 100 /\
  option_map st_mtime (os_stat Fixture.home_os (full_path_of "/home/u" "b"))
  = Some 200.
Proof. repeat split. Qed.

(** C4 (the code departs): the hidden-first comparator answers "first"
    whenever its first argument is [.] or [..], so it puts [..] before [.]
    as well as [.] before [..], and [.] before itself.  When the directory
    yields [..] ahead of [.], [myls -a] lists them in that order; the order
    of the claim is reached when [.] is yielded first. *)
Theorem hidden_first_clash_C4 :
  fst (compare_with_hidden ".." ".") = -1 /\
  fst (compare_with_hidden "." "..") = -1 /\
  fst (compare_with_hidden "." ".") = -1 /\
  do_ls_order Fixture.home_os (parse_options ["a"%char]) "/home/u"
  = Some [".."; "."; "a"; "b"] /\
  fst (qsort compare_with_hidden ["b"; "."; "a"; ".."])
  = ["."; ".."; "a"; "b"].
Proof. repeat split. Qed.

(** * Beyond the specification: further properties of the code *)

(** ** Option parsing *)

Lemma flags_eq (f g : Flags) :
  is_long_format_enabled f = is_long_format_enabled g ->
  is_no_option_enabled f = is_no_option_enabled g ->
  is_hidden_files_enabled f = is_hidden_files_enabled g ->
  is_sort_by_time_enabled f = is_sort_by_time_enabled g ->
  is_sort_by_access_time_enabled f = is_sort_by_access_time_enabled g ->
  is_directory_option_enabled f = is_directory_option_enabled g ->
  is_ctime_option_enabled f = is_ctime_option_enabled g ->
  is_no_sort_enabled f = is_no_sort_enabled g ->
  is_inode_enabled f = is_inode_enabled g ->
  is_column_output_enabled f = is_column_output_enabled g ->
  f = g.
Proof. destruct f, g; simpl; intros; subst; reflexivity. Qed.

(** One turn of the [switch]: a flag is set by its letters and never
    cleared. *)
Lemma set_option_fields (opt : ascii) (f : Flags) :
  let g := set_option opt f in
  is_long_format_enabled g = is_long_format_enabled f || Ascii.eqb "l" opt /\
  is_no_option_enabled g = true /\
  is_hidden_files_enabled g = is_hidden_files_enabled f || Ascii.eqb "a" opt /\
  is_sort_by_time_enabled g = is_sort_by_time_enabled f || Ascii.eqb "t" opt /\
  is_sort_by_access_time_enabled g
  = is_sort_by_access_time_enabled f || (Ascii.eqb "t" opt || Ascii.eqb "u" opt) /\
  is_directory_option_enabled g
  = is_directory_option_enabled f || Ascii.eqb "d" opt /\
  is_ctime_option_enabled g
  = is_ctime_option_enabled f || (Ascii.eqb "d" opt || Ascii.eqb "c" opt) /\
  is_no_sort_enabled g = is_no_sort_enabled f || Ascii.eqb "f" opt /\
  is_inode_enabled g = is_inode_enabled f || Ascii.eqb "i" opt /\
  is_column_output_enabled g = is_column_output_enabled f || Ascii.eqb "1" opt.
Proof.
  destruct f as [lng nop hid tim acc dir ctm nos ino col].
  destruct opt as [[] [] [] [] [] [] [] []]; cbn;
    rewrite ?orb_true_r, ?orb_false_r; repeat split; reflexivity.
Qed.

Lemma fold_set_option_fields (opts : list ascii) :
  forall f,
    let g := fold_left (fun f opt => set_option opt f) opts f in
    is_long_format_enabled g = is_long_format_enabled f || letter_in "l" opts /\
    is_no_option_enabled g
    = is_no_option_enabled f || negb (Nat.eqb (List.length opts) 0) /\
    is_hidden_files_enabled g = is_hidden_files_enabled f || letter_in "a" opts /\
    is_sort_by_time_enabled g = is_sort_by_time_enabled f || letter_in "t" opts /\
    is_sort_by_access_time_enabled g
    = is_sort_by_access_time_enabled f
      || (letter_in "t" opts || letter_in "u" opts) /\
    is_directory_option_enabled g
    = is_directory_option_enabled f || letter_in "d" opts /\
    is_ctime_option_enabled g
    = is_ctime_option_enabled f || (letter_in "d" opts || letter_in "c" opts) /\
    is_no_sort_enabled g = is_no_sort_enabled f || letter_in "f" opts /\
    is_inode_enabled g = is_inode_enabled f || letter_in "i" opts /\
    is_column_output_enabled g = is_column_output_enabled f || letter_in "1" opts.
Proof.
  induction opts as [|opt rest IH]; intros f.
  - simpl. rewrite !orb_false_r. repeat split; reflexivity.
  - cbn [fold_left]. specialize (IH (set_option opt f)). cbv zeta in IH.
    destruct IH as (H1 & H2 & H3 & H4 & H5 & H6 & H7 & H8 & H9 & H10).
    destruct (set_option_fields opt f)
      as (S1 & S2 & S3 & S4 & S5 & S6 & S7 & S8 & S9 & S10).
    cbv zeta. unfold letter_in in *. cbn [existsb List.length Nat.eqb negb].
    rewrite H1, H2, H3, H4, H5, H6, H7, H8, H9, H10.
    rewrite S1, S2, S3, S4, S5, S6, S7, S8, S9, S10.
    rewrite orb_true_r.
    repeat split;
      repeat match goal with
             | |- context [Ascii.eqb ?a ?b] => destruct (Ascii.eqb a b)
             | |- context [existsb ?f ?l] => destruct (existsb f l)
             | |- context [is_long_format_enabled f] =>
                 destruct (is_long_format_enabled f)
             | |- context [is_hidden_files_enabled f] =>
                 destruct (is_hidden_files_enabled f)
             | |- context [is_sort_by_time_enabled f] =>
                 destruct (is_sort_by_time_enabled f)
             | |- context [is_sort_by_access_time_enabled f] =>
                 destruct (is_sort_by_access_time_enabled f)
             | |- context [is_directory_option_enabled f] =>
                 destruct (is_directory_option_enabled f)
             | |- context [is_ctime_option_enabled f] =>
                 destruct (is_ctime_option_enabled f)
             | |- context [is_no_sort_enabled f] =>
                 destruct (is_no_sort_enabled f)
             | |- context [is_inode_enabled f] => destruct (is_inode_enabled f)
             | |- context [is_column_output_enabled f] =>
                 destruct (is_column_output_enabled f)
             end; reflexivity.
Qed.

Lemma parse_options_fields (opts : list ascii) :
  let fl := parse_options opts in
  is_long_format_enabled fl = letter_in "l" opts /\
  is_no_option_enabled fl = negb (Nat.eqb (List.length opts) 0) /\
  is_hidden_files_enabled fl = letter_in "a" opts /\
  is_sort_by_time_enabled fl = letter_in "t" opts /\
  is_sort_by_access_time_enabled fl = letter_in "t" opts || letter_in "u" opts /\
  is_directory_option_enabled fl = letter_in "d" opts /\
  is_ctime_option_enabled fl = letter_in "d" opts || letter_in "c" opts /\
  is_no_sort_enabled fl = letter_in "f" opts /\
  is_inode_enabled fl = letter_in "i" opts /\
  is_column_output_enabled fl = letter_in "1" opts.
Proof. exact (fold_set_option_fields opts no_flags). Qed.

(** X1: after the option loop each flag is set exactly when one of its
    letters was met: [l], [a], [f], [i], [1] set their own flag; [t] sets
    the time flag and, by falling through, the access-time flag that [u]
    also sets; [d] sets the directory flag and, by falling through, the
    change-time flag that [c] also sets; the no-option flag is set as soon
    as any option character was returned. *)
Theorem parse_options_flags (opts : list ascii) :
  let fl := parse_options opts in
  is_long_format_enabled fl = letter_in "l" opts /\
  is_no_option_enabled fl = negb (Nat.eqb (List.length opts) 0) /\
  is_hidden_files_enabled fl = letter_in "a" opts /\
  is_sort_by_time_enabled fl = letter_in "t" opts /\
  is_sort_by_access_time_enabled fl = letter_in "t" opts || letter_in "u" opts /\
  is_directory_option_enabled fl = letter_in "d" opts /\
  is_ctime_option_enabled fl = letter_in "d" opts || letter_in "c" opts /\
  is_no_sort_enabled fl = letter_in "f" opts /\
  is_inode_enabled fl = letter_in "i" opts /\
  is_column_output_enabled fl = letter_in "1" opts.
Proof. exact (fold_set_option_fields opts no_flags). Qed.

Lemma letter_in_same (c : ascii) (opts opts' : list ascii) :
  (forall x, In x opts <-> In x opts') ->
  letter_in c opts = letter_in c opts'.
Proof.
  intros H. unfold letter_in.
  destruct (existsb (Ascii.eqb c) opts) eqn:E1;
  destruct (existsb (Ascii.eqb c) opts') eqn:E2; try reflexivity.
  - apply existsb_exists in E1 as (x & Hx & Hc).
    assert (existsb (Ascii.eqb c) opts' = true) as E
      by (apply existsb_exists; exists x; split; [now apply H|exact Hc]).
    congruence.
  - apply existsb_exists in E2 as (x & Hx & Hc).
    assert (existsb (Ascii.eqb c) opts = true) as E
      by (apply existsb_exists; exists x; split; [now apply H|exact Hc]).
    congruence.
Qed.

(** X2: the flags depend only on which option characters were returned,
    not on their order nor on how often each was given. *)
Theorem parse_options_order_free (opts opts' : list ascii) :
  (forall c, In c opts <-> In c opts') ->
  parse_options opts = parse_options opts'.
Proof.
  intros H.
  pose proof (parse_options_fields opts) as F. cbv zeta in F.
  pose proof (parse_options_fields opts') as G. cbv zeta in G.
  destruct F as (F1 & F2 & F3 & F4 & F5 & F6 & F7 & F8 & F9 & F10).
  destruct G as (G1 & G2 & G3 & G4 & G5 & G6 & G7 & G8 & G9 & G10).
  assert (Nat.eqb (List.length opts) 0 = Nat.eqb (List.length opts') 0) as Hn.
  { destruct opts as [|a r], opts' as [|b r']; try reflexivity.
    - destruct (proj2 (H b)). now left.
    - destruct (proj1 (H a)). now left. }
  apply flags_eq;
    rewrite ?F1, ?F2, ?F3, ?F4, ?F5, ?F6, ?F7, ?F8, ?F9, ?F10,
            ?G1, ?G2, ?G3, ?G4, ?G5, ?G6, ?G7, ?G8, ?G9, ?G10, ?Hn,
            ?(letter_in_same _ opts opts' H); reflexivity.
Qed.

Lemma parse_options_order_free_witness :
  parse_options ["l"; "a"; "l"]%char = parse_options ["a"; "l"]%char.
Proof.
  apply parse_options_order_free.
  intros c. simpl. tauto.
Defined.

(** ** The hidden-first comparator and the default order *)


Lemma is_dot_dec (name : string) : {is_dot name} + {~ is_dot name}.
Proof.
  unfold is_dot.
  destruct (Z.eq_dec (strcmp name ".") 0); [left; now left|].
  destruct (Z.eq_dec (strcmp name "..") 0); [left; now right|].
  right. tauto.
Qed.

(** What the comparator's sign says, case by case. *)
Lemma compare_with_hidden_le (a b : string) :
  cmp_le compare_with_hidden a b <-> hidden_first_le a b.
Proof.
  unfold cmp_le, compare_with_hidden, hidden_first_le, is_dot.
  destruct (Z.eqb_spec (strcmp a ".") 0) as [Ha|Ha]; simpl;
    [split; [auto|lia]|].
  destruct (Z.eqb_spec (strcmp a "..") 0) as [Ha'|Ha']; simpl;
    [split; [auto|lia]|].
  destruct (Z.eqb_spec (strcmp b ".") 0) as [Hb|Hb]; simpl;
    [split; [lia|tauto]|].
  destruct (Z.eqb_spec (strcmp b "..") 0) as [Hb'|Hb']; simpl;
    [split; [lia|tauto]|].
  tauto.
Qed.

Lemma hidden_first_total (a b : string) :
  hidden_first_le a b \/ hidden_first_le b a.
Proof.
  unfold hidden_first_le.
  destruct (is_dot_dec a); [tauto|]. destruct (is_dot_dec b); [tauto|].
  destruct (strcmp_total a b); tauto.
Qed.

Lemma hidden_first_trans (a b c : string) :
  hidden_first_le a b -> hidden_first_le b c -> hidden_first_le a c.
Proof.
  unfold hidden_first_le. intros [Ha|[Hb Hab]] [Hb'|[Hc Hbc]]; try tauto.
  right. split; [exact Hc|]. eapply strcmp_trans; eassumption.
Qed.

Lemma StronglySorted_weaken (R R' : string -> string -> Prop) (l : list string) :
  (forall a b, In a l -> In b l -> R a b -> R' a b) ->
  StronglySorted R l -> StronglySorted R' l.
Proof.
  intros H Hs. induction Hs as [|x r Hs IH Hx]; constructor.
  - apply IH. intros a b Ha Hb. apply H; now right.
  - rewrite Forall_forall in *. intros y Hy.
    apply H; [now left|now right|]. now apply Hx.
Qed.

Lemma hidden_first_sorted (l : list string) :
  StronglySorted hidden_first_le (fst (qsort compare_with_hidden l)).
Proof.
  apply (StronglySorted_weaken (cmp_le compare_with_hidden)).
  - intros a b _ _. apply compare_with_hidden_le.
  - apply (qsort_sorted compare_with_hidden (fun _ => True)).
    + intros x y _ _. rewrite !compare_with_hidden_le.
      apply hidden_first_total.
    + intros x y z _ _ _. rewrite !compare_with_hidden_le.
      apply hidden_first_trans.
    + apply Forall_forall. trivial.
Qed.

Lemma do_ls_sort_default os fl file_entries :
  is_sort_by_time_enabled fl = false ->
  is_sort_by_access_time_enabled fl = false ->
  is_ctime_option_enabled fl = false ->
  is_no_sort_enabled fl = false ->
  do_ls_sort os fl file_entries = qsort compare_with_hidden file_entries.
Proof.
  intros H1 H2 H3 H4. unfold do_ls_sort. now rewrite H1, H2, H3, H4.
Qed.

(** X3: with no time flag and sorting not disabled, the short listing
    renders the listed entries, each once, in an order in which [.] and
    [..] stand before every other name and the other names are in byte
    order; the long listing does the same when show-hidden is set and [-t]
    is not. *)
Theorem hidden_first_order os fl input_path ents :
  os_opendir os input_path = Some ents ->
  is_sort_by_time_enabled fl = false ->
  is_no_sort_enabled fl = false ->
  (is_sort_by_access_time_enabled fl = false ->
   is_ctime_option_enabled fl = false ->
   (List.length (listed fl ents) <= MAX_ENTRIES)%nat ->
   exists order,
     do_ls_order os fl input_path = Some order /\
     Permutation (listed fl ents) order /\
     StronglySorted hidden_first_le order) /\
  (is_hidden_files_enabled fl = true ->
   (List.length (listed fl ents) <= 1024)%nat ->
   Forall (fun name => os_stat os (full_path_of input_path name) <> None)
          (listed fl ents) ->
   exists order,
     long_order os fl input_path = Some order /\
     Permutation (listed fl ents) order /\
     StronglySorted hidden_first_le order).
Proof.
  intros Hdir Ht Hns. split.
  - intros Ha Hc Hlen. unfold do_ls_order. rewrite Hdir.
    rewrite (do_ls_read_some fl ents []) by exact Hlen. simpl.
    rewrite do_ls_sort_default by assumption.
    eexists. split; [reflexivity|]. split.
    + apply qsort_perm.
    + apply hidden_first_sorted.
  - intros Hh Hlen Hok. unfold long_order. rewrite Hdir.
    destruct (long_read_names os fl input_path ents [] 0 Hok Hlen) as [t Hr].
    rewrite Hr. simpl app. unfold long_sort. rewrite Hh, Ht, Hns. simpl.
    eexists. split; [reflexivity|]. split.
    + apply qsort_perm.
    + apply hidden_first_sorted.
Qed.

Lemma hidden_first_order_witness :
  exists order,
    do_ls_order Fixture.srv_os (parse_options ["a"%char]) "/srv" = Some order /\
    Permutation ["."; ".."; "a"; "gone"; "b"] order /\
    StronglySorted hidden_first_le order.
Proof.
  destruct (hidden_first_order Fixture.srv_os (parse_options ["a"%char])
              "/srv" ["."; ".."; "a"; "gone"; "b"] eq_refl eq_refl eq_refl)
    as [Hshort _].
  apply Hshort; [reflexivity|reflexivity|vm_compute; lia].
Defined.



(** ** The time orders when every name resolves *)

Lemma access_time_le os a b :
  resolves os a -> resolves os b ->
  (cmp_le (compare_by_access_time os) a b <-> access_order os a b).
Proof.
  unfold resolves, cmp_le, compare_by_access_time, access_order, atime_of.
  intros Ha Hb.
  destruct (os_stat os a) as [sa|]; [|contradiction].
  destruct (os_stat os b) as [sb|]; [|contradiction].
  destruct (Z.ltb_spec (st_atime sa) (st_atime sb)); simpl; [lia|].
  destruct (Z.gtb_spec (st_atime sa) (st_atime sb)); simpl; lia.
Qed.

Lemma access_order_total os a b : access_order os a b \/ access_order os b a.
Proof.
  unfold access_order. destruct (strcmp_total a b);
    destruct (Z.lt_total (atime_of os a) (atime_of os b)) as [|[|]]; auto.
Qed.

Lemma access_order_trans os a b c :
  access_order os a b -> access_order os b c -> access_order os a c.
Proof.
  unfold access_order. intros [H1|[H1 S1]] [H2|[H2 S2]]; try (left; lia).
  right. split; [congruence|]. eapply strcmp_trans; eassumption.
Qed.

Lemma ctime_le os a b :
  resolves os a -> resolves os b ->
  (cmp_le (compare_by_ctime os) a b <-> ctime_order os a b).
Proof.
  unfold resolves, cmp_le, compare_by_ctime, ctime_order, ctime_of.
  intros Ha Hb.
  destruct (os_stat os a) as [sa|]; [|contradiction].
  destruct (os_stat os b) as [sb|]; [|contradiction].
  destruct (Z.gtb_spec (st_ctime sa) (st_ctime sb)); simpl; [lia|].
  destruct (Z.ltb_spec (st_ctime sa) (st_ctime sb)); simpl; lia.
Qed.

Lemma access_sorted os l :
  Forall (resolves os) l ->
  StronglySorted (access_order os) (fst (qsort (compare_by_access_time os) l)).
Proof.
  intros Hl.
  assert (forall x, In x (fst (qsort (compare_by_access_time os) l)) ->
                    resolves os x) as Hin.
  { intros x Hx. apply qsort_in in Hx.
    rewrite Forall_forall in Hl. now apply Hl. }
  apply (StronglySorted_weaken (cmp_le (compare_by_access_time os))).
  - intros a b Ha Hb. apply access_time_le; auto.
  - apply (qsort_sorted (compare_by_access_time os) (resolves os)).
    + intros x y Hx Hy. rewrite !access_time_le by assumption.
      apply access_order_total.
    + intros x y z Hx Hy Hz. rewrite !access_time_le by assumption.
      apply access_order_trans.
    + exact Hl.
Qed.

Lemma ctime_sorted os l :
  Forall (resolves os) l ->
  StronglySorted (ctime_order os) (fst (qsort (compare_by_ctime os) l)).
Proof.
  intros Hl.
  assert (forall x, In x (fst (qsort (compare_by_ctime os) l)) ->
                    resolves os x) as Hin.
  { intros x Hx. apply qsort_in in Hx.
    rewrite Forall_forall in Hl. now apply Hl. }
  apply (StronglySorted_weaken (cmp_le (compare_by_ctime os))).
  - intros a b Ha Hb. apply ctime_le; auto.
  - apply (qsort_sorted (compare_by_ctime os) (resolves os)).
    + intros x y Hx Hy. rewrite !ctime_le by assumption.
      unfold ctime_order. lia.
    + intros x y z Hx Hy Hz. rewrite !ctime_le by assumption.
      unfold ctime_order. lia.
    + exact Hl.
Qed.

Lemma names_the_entry_resolves os input_path l :
  Forall (names_the_entry os input_path) l -> Forall (resolves os) l.
Proof. apply Forall_impl. intros name [H _]. exact H. Qed.

Lemma names_the_entry_stat_ok os input_path l :
  Forall (names_the_entry os input_path) l ->
  Forall (fun name => os_stat os (full_path_of input_path name) <> None) l.
Proof. apply Forall_impl. intros name [H E]. now rewrite <- E. Qed.

Lemma entry_access_sorted os input_path l :
  Forall (names_the_entry os input_path) l ->
  StronglySorted (entry_access_order os input_path)
                 (fst (qsort (compare_by_access_time os) l)).
Proof.
  intros Hl.
  apply (StronglySorted_weaken (access_order os));
    [|apply access_sorted; now apply (names_the_entry_resolves os input_path)].
  rewrite Forall_forall in Hl.
  intros a b Ha Hb. apply qsort_in in Ha, Hb.
  destruct (Hl a Ha) as [_ Ea]. destruct (Hl b Hb) as [_ Eb].
  unfold entry_access_order, access_order, entry_atime, atime_of.
  now rewrite Ea, Eb.
Qed.

Lemma entry_ctime_sorted os input_path l :
  Forall (names_the_entry os input_path) l ->
  StronglySorted (entry_ctime_order os input_path)
                 (fst (qsort (compare_by_ctime os) l)).
Proof.
  intros Hl.
  apply (StronglySorted_weaken (ctime_order os));
    [|apply ctime_sorted; now apply (names_the_entry_resolves os input_path)].
  rewrite Forall_forall in Hl.
  intros a b Ha Hb. apply qsort_in in Ha, Hb.
  destruct (Hl a Ha) as [_ Ea]. destruct (Hl b Hb) as [_ Eb].
  unfold entry_ctime_order, ctime_order, entry_ctime, ctime_of.
  now rewrite Ea, Eb.
Qed.

(** X5: when every listed name, as handed to the comparator, resolves to
    the listed entry itself ([stat] answers for the bare name what it
    answers for the entry's path under the listed directory, as when the
    working directory is listed), a listing sorted by access time ([-t] or
    [-u] for the short listing, [-t] for the long one) renders the listed
    entries, each once, latest own access time first, and entries with the
    same access time in byte order of their names. *)
Theorem access_time_listing_sorted os fl input_path ents :
  os_opendir os input_path = Some ents ->
  is_no_sort_enabled fl = false ->
  Forall (names_the_entry os input_path) (listed fl ents) ->
  (is_sort_by_time_enabled fl || is_sort_by_access_time_enabled fl = true ->
   (List.length (listed fl ents) <= MAX_ENTRIES)%nat ->
   exists order,
     do_ls_order os fl input_path = Some order /\
     Permutation (listed fl ents) order /\
     StronglySorted (entry_access_order os input_path) order) /\
  (is_sort_by_time_enabled fl = true ->
   (List.length (listed fl ents) <= 1024)%nat ->
   exists order,
     long_order os fl input_path = Some order /\
     Permutation (listed fl ents) order /\
     StronglySorted (entry_access_order os input_path) order).
Proof.
  intros Hdir Hns Hres. split.
  - intros Ht Hlen. unfold do_ls_order. rewrite Hdir.
    rewrite (do_ls_read_some fl ents []) by exact Hlen. simpl.
    unfold do_ls_sort. rewrite Ht, Hns. simpl.
    eexists. split; [reflexivity|]. split.
    + apply qsort_perm.
    + now apply entry_access_sorted.
  - intros Ht Hlen. unfold long_order. rewrite Hdir.
    destruct (long_read_names os fl input_path ents [] 0
                (names_the_entry_stat_ok os input_path _ Hres) Hlen)
      as [t Hr].
    rewrite Hr. simpl app. unfold long_sort. rewrite Ht, Hns.
    rewrite andb_false_r. simpl.
    eexists. split; [reflexivity|]. split.
    + apply qsort_perm.
    + now apply entry_access_sorted.
Qed.

Lemma access_time_listing_sorted_witness :
  exists order,
    do_ls_order Fixture.home_os (parse_options ["u"%char]) "/home/u"
    = Some order /\
    Permutation ["b"; "a"] order /\
    StronglySorted (entry_access_order Fixture.home_os "/home/u") order.
Proof.
  destruct (access_time_listing_sorted Fixture.home_os
              (parse_options ["u"%char]) "/home/u" [".."; "."; "b"; "a"])
    as [Hshort _].
  - reflexivity.
  - reflexivity.
  - repeat constructor; discriminate.
  - apply Hshort; [reflexivity|vm_compute; lia].
Defined.

(** X6: when every listed name, as handed to the comparator, resolves to
    the listed entry itself (as when the working directory is listed), the
    short listing under [-c] alone renders the listed entries, each once,
    with own change times that never increase from one entry to any later
    one. *)
Theorem change_time_listing_sorted os fl input_path ents :
  os_opendir os input_path = Some ents ->
  is_sort_by_time_enabled fl = false ->
  is_sort_by_access_time_enabled fl = false ->
  is_ctime_option_enabled fl = true ->
  is_no_sort_enabled fl = false ->
  (List.length (listed fl ents) <= MAX_ENTRIES)%nat ->
  Forall (names_the_entry os input_path) (listed fl ents) ->
  exists order,
    do_ls_order os fl input_path = Some order /\
    Permutation (listed fl ents) order /\
    StronglySorted (entry_ctime_order os input_path) order.
Proof.
  intros Hdir Ht Ha Hc Hns Hlen Hres. unfold do_ls_order. rewrite Hdir.
  rewrite (do_ls_read_some fl ents []) by exact Hlen. simpl.
  unfold do_ls_sort. rewrite Ht, Ha, Hc, Hns. simpl.
  eexists. split; [reflexivity|]. split.
  - apply qsort_perm.
  - now apply entry_ctime_sorted.
Qed.

Lemma change_time_listing_sorted_witness :
  exists order,
    do_ls_order Fixture.home_os (parse_options ["c"%char]) "/home/u"
    = Some order /\
    Permutation ["b"; "a"] order /\
    StronglySorted (entry_ctime_order Fixture.home_os "/home/u") order.
Proof.
  apply (change_time_listing_sorted Fixture.home_os (parse_options ["c"%char])
           "/home/u" [".."; "."; "b"; "a"]); try reflexivity.
  - vm_compute. lia.
  - repeat constructor; discriminate.
Defined.

(** ** Capacity, handles and paths that cannot be listed *)

Lemma do_ls_read_overflow fl ents :
  forall file_entries,
    (List.length file_entries <= MAX_ENTRIES)%nat ->
    (MAX_ENTRIES < List.length file_entries + List.length (listed fl ents))%nat ->
    do_ls_read fl ents file_entries = None.
Proof.
  induction ents as [|d_name rest IH]; intros file_entries Hle Hgt.
  - simpl in Hgt. lia.
  - rewrite do_ls_read_cons. rewrite listed_cons in Hgt.
    destruct (skips_entry fl d_name); [now apply IH|].
    simpl in Hgt.
    destruct (Nat.leb_spec MAX_ENTRIES (List.length file_entries));
      [reflexivity|].
    apply IH; rewrite length_app; simpl; lia.
Qed.

(** X7: on a directory, [do_ls] runs into undefined behaviour exactly when
    more than 100 entries pass the hidden-file test: the 101st is stored
    past the end of [file_entries]. *)
Theorem do_ls_capacity os fl input_path ents p :
  os_opendir os input_path = Some ents ->
  (do_ls os fl input_path p = None <->
   (MAX_ENTRIES < List.length (listed fl ents))%nat).
Proof.
  intros Hdir. unfold do_ls. rewrite Hdir.
  destruct (Nat.le_gt_cases (List.length (listed fl ents)) MAX_ENTRIES)
    as [Hle|Hgt].
  - rewrite (do_ls_read_some fl ents []) by exact Hle.
    destruct (do_ls_sort os fl ([] ++ listed fl ents)) as [sorted diags].
    split; [discriminate|lia].
  - rewrite (do_ls_read_overflow fl ents []);
      [tauto|simpl; unfold MAX_ENTRIES; lia|exact Hgt].
Qed.

Lemma do_ls_capacity_witness :
  do_ls Fixture.home_os no_flags "/home/u" proc0 <> None.
Proof.
  intros H.
  apply (do_ls_capacity Fixture.home_os no_flags "/home/u"
           [".."; "."; "b"; "a"] proc0 eq_refl) in H.
  vm_compute in H. lia.
Defined.

(** X8: whenever [do_ls] returns, on a directory, on a plain file or on a
    path it cannot list, it holds no more open directory handles than when
    it was called. *)
Theorem do_ls_leaves_no_handle os fl input_path p p' :
  do_ls os fl input_path p = Some p' ->
  p_open_dirs p' = p_open_dirs p.
Proof. exact (do_ls_closes_dir os fl input_path p p'). Qed.

Lemma do_ls_leaves_no_handle_witness :
  p_open_dirs (mk_Proc ("a   b   " ++ NL) [] 0) = p_open_dirs proc0.
Proof.
  apply (do_ls_leaves_no_handle Fixture.home_os no_flags "/home/u").
  reflexivity.
Defined.

Lemma stat_found_dec os path :
  {os_stat os path <> None} + {~ os_stat os path <> None}.
Proof.
  destruct (os_stat os path); [left; discriminate|right; intros H; now apply H].
Qed.

(** X9: on a directory whose listed entries fit the array, the long
    listing returns with its directory handle closed exactly when [stat]
    succeeded on every listed entry. *)
Theorem long_listing_handle os fl input_path ents p :
  os_opendir os input_path = Some ents ->
  (List.length (listed fl ents) <= 1024)%nat ->
  exists p',
    list_directory_long_format os fl input_path p = Some p' /\
    (p_open_dirs p' = p_open_dirs p <->
     Forall (fun name => os_stat os (full_path_of input_path name) <> None)
            (listed fl ents)).
Proof.
  intros Hdir Hlen.
  destruct (Forall_Exists_dec
              (fun name => os_stat os (full_path_of input_path name) <> None)
              (fun name => stat_found_dec os (full_path_of input_path name))
              (listed fl ents)) as [Hall|Hex].
  - destruct (long_listing_closes_dir_when_read os fl input_path ents p
                Hdir Hlen Hall) as (p' & Hrun & Hsame).
    exists p'. split; [exact Hrun|]. split; [auto|]. intros _. exact Hsame.
  - assert (Exists (fun name => os_stat os (full_path_of input_path name) = None)
                   (listed fl ents)) as Hnone.
    { apply Exists_exists in Hex as (x & Hx & Hn). apply Exists_exists.
      exists x. split; [exact Hx|].
      destruct (os_stat os (full_path_of input_path x)); [|reflexivity].
      exfalso. apply Hn. discriminate. }
    unfold list_directory_long_format. rewrite Hdir.
    rewrite (long_read_return os fl input_path ents [] 0) by assumption.
    eexists. split; [reflexivity|]. simpl. split; [lia|].
    intros Hall. exfalso.
    apply Exists_exists in Hnone as (x & Hx & Hn).
    rewrite Forall_forall in Hall. exact (Hall x Hx Hn).
Qed.

Lemma long_listing_handle_witness :
  exists p',
    list_directory_long_format Fixture.pub_os (parse_options ["l"%char])
                               "/pub" proc0 = Some p' /\
    p_open_dirs p' = 0%nat.
Proof.
  destruct (long_listing_handle Fixture.pub_os (parse_options ["l"%char])
              "/pub" ["."; ".."; "a"; "b"] proc0 eq_refl)
    as (p' & Hrun & Hiff).
  - vm_compute. lia.
  - exists p'. split; [exact Hrun|].
    apply Hiff. repeat constructor; discriminate.
Defined.

(** X10: a path that cannot be opened as a directory and is not a regular
    file (it does not exist, or [stat] shows something else) makes either
    listing routine write nothing to standard output, open no handle, and
    leave exactly one diagnostic. *)
Theorem unlistable_path_reports_once os fl input_path p :
  os_opendir os input_path = None ->
  (forall file_stat, os_stat os input_path = Some file_stat ->
                     S_ISREG (st_mode file_stat) = false) ->
  exists diagnostic,
    (diagnostic = "stat failed" \/
     diagnostic = "Cannot open directory: " ++ input_path) /\
    do_ls os fl input_path p
    = Some (mk_Proc (p_stdout p) (p_stderr p ++ [diagnostic])
                    (p_open_dirs p)) /\
    list_directory_long_format os fl input_path p
    = Some (mk_Proc (p_stdout p) (p_stderr p ++ [diagnostic])
                    (p_open_dirs p)).
Proof.
  intros Hdir Hreg. unfold do_ls, list_directory_long_format. rewrite Hdir.
  destruct (os_stat os input_path) as [file_stat|].
  - rewrite (Hreg file_stat eq_refl). simpl.
    eexists. split; [right; reflexivity|]. split; reflexivity.
  - eexists. split; [left; reflexivity|]. split; reflexivity.
Qed.

Lemma unlistable_path_reports_once_witness :
  exists diagnostic,
    (diagnostic = "stat failed" \/
     diagnostic = "Cannot open directory: " ++ "/nowhere") /\
    do_ls Fixture.home_os no_flags "/nowhere" proc0
    = Some (mk_Proc "" [diagnostic] 0) /\
    list_directory_long_format Fixture.home_os no_flags "/nowhere" proc0
    = Some (mk_Proc "" [diagnostic] 0).
Proof.
  apply (unlistable_path_reports_once Fixture.home_os no_flags "/nowhere"
                                      proc0).
  - reflexivity.
  - intros file_stat H. discriminate H.
Defined.

(** ** What reaches standard output *)

Lemma appends_id : appends (fun p => p).
Proof. intros p. unfold text_of. simpl. now rewrite append_nil_r. Qed.

Lemma appends_printf s : appends (printf s).
Proof. intros p. reflexivity. Qed.

Lemma appends_perror msg : appends (perror msg).
Proof. intros p. unfold text_of. simpl. now rewrite append_nil_r. Qed.

Lemma appends_compose f g :
  appends f -> appends g -> appends (fun p => g (f p)).
Proof.
  intros Hf Hg p. unfold text_of.
  rewrite (Hg (f p)), (Hf p), (Hg (f proc0)). unfold text_of.
  now rewrite append_assoc.
Qed.

Lemma appends_print_colored tail os fl path :
  appends (print_colored tail os fl path).
Proof.
  intros p. unfold text_of, print_colored.
  repeat match goal with
         | |- context [match ?x with _ => _ end] => destruct x
         end; simpl; rewrite ?append_nil_r; reflexivity.
Qed.

Lemma appends_print_inode os fl path : appends (print_inode os fl path).
Proof.
  intros p. unfold text_of, print_inode.
  repeat match goal with
         | |- context [match ?x with _ => _ end] => destruct x
         end; simpl; rewrite ?append_nil_r; reflexivity.
Qed.

Lemma appends_print_entry os fl path : appends (print_entry os fl path).
Proof.
  unfold print_entry. destruct (is_column_output_enabled fl);
    apply appends_print_colored.
Qed.

Lemma appends_print_longformat os fl path :
  appends (print_longformat os fl path).
Proof.
  intros p. unfold text_of, print_longformat.
  destruct (os_lstat os path) as [buf|];
    [|simpl; rewrite ?append_nil_r; reflexivity].
  destruct (os_getpwuid os (st_uid buf));
    [|simpl; rewrite ?append_nil_r; reflexivity].
  destruct (os_getgrgid os (st_gid buf));
    [|simpl; rewrite ?append_nil_r; reflexivity].
  destruct (os_localtime_fmt os (st_mtime buf)) as [time_str|];
    [|simpl; rewrite ?append_nil_r; reflexivity].
  destruct (String.length time_str =? 0)%nat;
    [simpl; rewrite ?append_assoc; reflexivity|].
  cbv zeta. unfold print_with_color.
  cbn [printf p_stdout].
  rewrite !(appends_print_colored "   " os fl path).
  unfold printf, proc0. cbn [p_stdout append]. now rewrite !append_assoc.
Qed.

Lemma do_ls_print_cons os fl input_path name rest p :
  do_ls_print os fl input_path (name :: rest) p
  = do_ls_print os fl input_path rest
      (print_entry os fl (full_path_of input_path name)
         (print_inode os fl (full_path_of input_path name) p)).
Proof. reflexivity. Qed.

Lemma long_print_cons os fl input_path name rest p :
  long_print os fl input_path (name :: rest) p
  = long_print os fl input_path rest
      (print_longformat os fl (snprintf 1024 (input_path ++ "/" ++ name))
         (print_inode os fl (snprintf 1024 (input_path ++ "/" ++ name)) p)).
Proof. reflexivity. Qed.

Lemma appends_do_ls_print os fl input_path names :
  appends (do_ls_print os fl input_path names).
Proof.
  induction names as [|name rest IH]; [apply appends_id|].
  intros p. unfold text_of. rewrite !do_ls_print_cons.
  rewrite (IH _), (IH (print_entry _ _ _ (print_inode _ _ _ proc0))).
  rewrite (appends_print_entry os fl _ (print_inode _ _ _ p)).
  rewrite (appends_print_entry os fl _ (print_inode _ _ _ proc0)).
  rewrite (appends_print_inode os fl _ p).
  unfold text_of. simpl. now rewrite !append_assoc.
Qed.

Lemma appends_long_print os fl input_path names :
  appends (long_print os fl input_path names).
Proof.
  induction names as [|name rest IH]; [apply appends_id|].
  intros p. unfold text_of. rewrite !long_print_cons.
  rewrite (IH _), (IH (print_longformat _ _ _ (print_inode _ _ _ proc0))).
  rewrite (appends_print_longformat os fl _ (print_inode _ _ _ p)).
  rewrite (appends_print_longformat os fl _ (print_inode _ _ _ proc0)).
  rewrite (appends_print_inode os fl _ p).
  unfold text_of. simpl. now rewrite !append_assoc.
Qed.

Lemma appends_same_start f p q :
  appends f -> p_stdout p = p_stdout q -> p_stdout (f p) = p_stdout (f q).
Proof. intros Hf H. now rewrite (Hf p), (Hf q), H. Qed.

(** X11: an entry on which [lstat] fails when it is rendered (it vanished
    after it was read from the directory) costs only itself: both print
    loops write to standard output exactly what they would write for the
    entries on which [lstat] succeeds. *)
Theorem vanished_entries_cost_only_themselves os fl input_path names p :
  p_stdout (do_ls_print os fl input_path names p)
  = p_stdout
      (do_ls_print os fl input_path
         (filter (fun name => lstat_okb os (full_path_of input_path name)) names)
         p) /\
  p_stdout (long_print os fl input_path names p)
  = p_stdout
      (long_print os fl input_path
         (filter (fun name =>
                    lstat_okb os (snprintf 1024 (input_path ++ "/" ++ name)))
                 names)
         p).
Proof.
  split.
  - revert p. induction names as [|name rest IH]; intros p; [reflexivity|].
    cbn [filter]. unfold lstat_okb at 1.
    destruct (os_lstat os (full_path_of input_path name)) as [st|] eqn:Hl.
    + rewrite !do_ls_print_cons. apply IH.
    + rewrite do_ls_print_cons, <- IH.
      apply appends_same_start; [apply appends_do_ls_print|].
      unfold print_entry, print_inode, print_column_with_color,
        print_with_color, print_colored.
      rewrite Hl.
      destruct (is_inode_enabled fl), (is_column_output_enabled fl);
        reflexivity.
  - revert p. induction names as [|name rest IH]; intros p; [reflexivity|].
    cbn [filter]. unfold lstat_okb at 1.
    destruct (os_lstat os (snprintf 1024 (input_path ++ "/" ++ name)))
      as [st|] eqn:Hl.
    + rewrite !long_print_cons. apply IH.
    + rewrite long_print_cons, <- IH.
      apply appends_same_start; [apply appends_long_print|].
      unfold print_longformat, print_inode. rewrite Hl.
      destruct (is_inode_enabled fl); reflexivity.
Qed.

(** X12: when the owner, the group or the modification time of an entry
    cannot be resolved, [print_longformat] has already written the type
    character: standard output gains that character and nothing else, not
    even a line end, and one diagnostic is left. *)
Theorem unresolved_identity_leaves_type_char os fl path buf p :
  os_lstat os path = Some buf ->
  os_getpwuid os (st_uid buf) = None \/
  os_getgrgid os (st_gid buf) = None \/
  os_localtime_fmt os (st_mtime buf) = None ->
  p_stdout (print_longformat os fl path p)
  = p_stdout p ++ type_char (st_mode buf) /\
  List.length (p_stderr (print_longformat os fl path p))
  = S (List.length (p_stderr p)).
Proof.
  intros Hl H. unfold print_longformat. rewrite Hl.
  destruct (os_getpwuid os (st_uid buf)) as [pw|].
  - destruct (os_getgrgid os (st_gid buf)) as [gr|].
    + destruct (os_localtime_fmt os (st_mtime buf)) as [t|].
      * destruct H as [H|[H|H]]; discriminate.
      * simpl. rewrite length_app. simpl. split; [reflexivity|lia].
    + simpl. rewrite length_app. simpl. split; [reflexivity|lia].
  - simpl. rewrite length_app. simpl. split; [reflexivity|lia].
Qed.

Lemma unresolved_identity_leaves_type_char_witness :
  let os := mk_OS (fun _ => None) (fun _ => None)
                  (fun _ => Some (Fixture.file 7 1 1 1 1))
                  (fun _ => None) (fun _ => None) (fun _ => Some "group")
                  (fun _ => Some "Monday 01 00:00") Fixture.last_component in
  p_stdout (print_longformat os no_flags "orphan" proc0) = "-" /\
  List.length (p_stderr (print_longformat os no_flags "orphan" proc0)) = 1%nat.
Proof.
  intros os.
  apply (unresolved_identity_leaves_type_char os no_flags "orphan"
           (Fixture.file 7 1 1 1 1) proc0).
  - reflexivity.
  - left. reflexivity.
Defined.

(** ** The type character *)

(** X13: each type letter of the long format is shown for exactly its file
    type, whatever the permission bits are, and the words "Unknown type"
    exactly when the type bits are none of the seven. *)
Theorem type_char_letters (mode : Z) :
  (type_char mode = "-" <-> S_ISREG mode = true) /\
  (type_char mode = "d" <-> S_ISDIR mode = true) /\
  (type_char mode = "b" <-> S_ISBLK mode = true) /\
  (type_char mode = "c" <-> S_ISCHR mode = true) /\
  (type_char mode = "l" <-> S_ISLNK mode = true) /\
  (type_char mode = "p" <-> S_ISFIFO mode = true) /\
  (type_char mode = "s" <-> S_ISSOCK mode = true) /\
  (type_char mode = "Unknown type" <->
   S_ISREG mode = false /\ S_ISDIR mode = false /\ S_ISBLK mode = false /\
   S_ISCHR mode = false /\ S_ISLNK mode = false /\ S_ISFIFO mode = false /\
   S_ISSOCK mode = false).
Proof.
  unfold type_char, S_ISREG, S_ISDIR, S_ISBLK, S_ISCHR, S_ISLNK, S_ISFIFO,
    S_ISSOCK, is_type.
  unfold S_IFREG, S_IFDIR, S_IFBLK, S_IFCHR, S_IFLNK, S_IFIFO, S_IFSOCK.
  generalize (Z.land mode S_IFMT). intros m.
  destruct (Z.eqb_spec m 32768); [subst; cbn; intuition discriminate|].
  destruct (Z.eqb_spec m 16384); [subst; cbn; intuition discriminate|].
  destruct (Z.eqb_spec m 24576); [subst; cbn; intuition discriminate|].
  destruct (Z.eqb_spec m 8192); [subst; cbn; intuition discriminate|].
  destruct (Z.eqb_spec m 40960); [subst; cbn; intuition discriminate|].
  destruct (Z.eqb_spec m 4096); [subst; cbn; intuition discriminate|].
  destruct (Z.eqb_spec m 49152); [subst; cbn; intuition discriminate|].
  intuition discriminate.
Qed.

(** ** The path buffer *)

Lemma take_length n s : (String.length (take n s) <= n)%nat.
Proof.
  revert s. induction n as [|n IH]; intros [|c r]; simpl; try lia.
  specialize (IH r). lia.
Qed.

Lemma take_all n s : (String.length s <= n)%nat -> take n s = s.
Proof.
  revert s. induction n as [|n IH]; intros [|c r]; simpl; intros H;
    try reflexivity; try lia.
  f_equal. apply IH. lia.
Qed.

Lemma take_prefix n s : String.prefix (take n s) s = true.
Proof.
  revert s. induction n as [|n IH]; intros [|c r]; simpl; try reflexivity.
  destruct (ascii_dec c c); [apply IH|contradiction].
Qed.

(** X14: the path the short listing hands to [lstat] and to the renderer
    is the directory and the entry name joined by a slash (by nothing for
    the root), cut to what the 1024-byte buffer holds: never longer than
    1023 bytes, always a prefix of the joined text, and the joined text
    itself whenever that fits. *)
Theorem full_path_fits_buffer (input_path name : string) :
  (String.length (full_path_of input_path name) <= 1023)%nat /\
  String.prefix (full_path_of input_path name) (joined input_path name) = true /\
  ((String.length (joined input_path name) <= 1023)%nat ->
   full_path_of input_path name = joined input_path name).
Proof.
  unfold full_path_of, joined, snprintf.
  change (1024 - 1)%nat with 1023%nat.
  destruct (strcmp input_path "/" =? 0);
    (split; [apply take_length|split; [apply take_prefix|apply take_all]]).
Qed.

Lemma full_path_fits_buffer_witness :
  full_path_of "/srv" "a" = "/srv/a" /\ full_path_of "/" "etc" = "/etc".
Proof.
  destruct (full_path_fits_buffer "/srv" "a") as (_ & _ & H1).
  destruct (full_path_fits_buffer "/" "etc") as (_ & _ & H2).
  split; [apply H1|apply H2]; vm_compute; lia.
Defined.

(** ** [compare] and the argument lists *)

Lemma compare_sorted (l : list string) :
  StronglySorted byte_le (fst (qsort compare l)).
Proof.
  apply (StronglySorted_weaken (cmp_le compare)); [auto|].
  apply (qsort_sorted compare (fun _ => True)).
  - intros x y _ _. apply strcmp_total.
  - intros x y z _ _ _. apply strcmp_trans.
  - apply Forall_forall. trivial.
Qed.

Lemma list_directories_loop_cons os fl path rest p :
  list_directories_loop os fl (path :: rest) p
  = match os_stat os path with
    | None => list_directories_loop os fl rest (perror "stat failed" p)
    | Some _ =>
        list_directories_loop os fl rest (list_directories_entry os fl path p)
    end.
Proof. reflexivity. Qed.

Lemma appends_list_directories_entry os fl path :
  appends (list_directories_entry os fl path).
Proof.
  unfold list_directories_entry.
  destruct (is_long_format_enabled fl); [apply appends_print_longformat|].
  destruct (is_column_output_enabled fl); apply appends_print_colored.
Qed.

Lemma appends_list_directories_loop os fl paths :
  appends (list_directories_loop os fl paths).
Proof.
  induction paths as [|path rest IH]; [apply appends_id|].
  intros p. unfold text_of. rewrite !list_directories_loop_cons.
  destruct (os_stat os path).
  - rewrite (IH _), (IH (list_directories_entry _ _ _ proc0)).
    rewrite (appends_list_directories_entry os fl path p).
    unfold text_of. now rewrite !append_assoc.
  - rewrite (IH _), (IH (perror _ proc0)). simpl. reflexivity.
Qed.

Lemma list_directories_loop_skips os fl paths :
  forall p,
    p_stdout (list_directories_loop os fl paths p)
    = p_stdout (list_directories_loop os fl (filter (stat_okb os) paths) p).
Proof.
  induction paths as [|path rest IH]; intros p; [reflexivity|].
  cbn [filter]. unfold stat_okb at 1.
  rewrite list_directories_loop_cons.
  destruct (os_stat os path) eqn:Hs.
  - rewrite list_directories_loop_cons, Hs. apply IH.
  - rewrite <- IH.
    apply appends_same_start; [apply appends_list_directories_loop|].
    reflexivity.
Qed.

(** X15: given paths none of which ends in a slash (so that [basename]
    leaves each as it is), [list_directories] goes through them, each once,
    in byte order; a path on which [stat] fails is passed over, and
    standard output receives exactly what the paths on which [stat]
    succeeds produce, followed by one line end unless the long or the
    column format is on. *)
Theorem list_directories_skips_failed os fl multiArgs p :
  Forall (fun path => ends_with_slash path = false) multiArgs ->
  exists sorted,
    Permutation multiArgs sorted /\
    StronglySorted byte_le sorted /\
    p_stdout (list_directories os fl multiArgs p)
    = p_stdout (list_directories_loop os fl (filter (stat_okb os) sorted) p)
      ++ closing_newline fl.
Proof.
  intros _.
  exists (fst (qsort compare multiArgs)).
  split; [apply qsort_perm|]. split; [apply compare_sorted|].
  unfold list_directories, closing_newline.
  destruct (negb (is_long_format_enabled fl)
            && negb (is_column_output_enabled fl)); simpl;
    rewrite ?append_nil_r; rewrite list_directories_loop_skips; reflexivity.
Qed.

Lemma list_directories_skips_failed_witness :
  exists sorted,
    Permutation ["/gone"; "/etc/passwd"; "/etc"] sorted /\
    StronglySorted byte_le sorted /\
    p_stdout (list_directories Scenes.etc_os (parse_options ["d"%char])
                               ["/gone"; "/etc/passwd"; "/etc"] proc0)
    = p_stdout (list_directories_loop Scenes.etc_os (parse_options ["d"%char])
                  (filter (stat_okb Scenes.etc_os) sorted) proc0)
      ++ closing_newline (parse_options ["d"%char]).
Proof.
  apply (list_directories_skips_failed Scenes.etc_os
           (parse_options ["d"%char]) ["/gone"; "/etc/passwd"; "/etc"] proc0).
  repeat constructor.
Defined.

(** ** [sort_and_display] *)

Lemma qsort_single cmp x : fst (qsort cmp [x]) = [x].
Proof. reflexivity. Qed.

Lemma display_files_single os fl path p :
  display_files os fl [path] p = display_one os fl path p.
Proof. simpl. now destruct (display_one os fl path p). Qed.

Lemma display_directories_single os fl path p :
  display_directories os fl false [path] p = display_one os fl path p.
Proof. simpl. now destruct (display_one os fl path p). Qed.

(** X16: a single path argument is displayed exactly as the listing
    routine chosen by the flags displays it, without any header, whether
    [is_directory] takes it for a directory or not, and so whatever stale
    mode it reads when [stat] fails. *)
Theorem single_argument_no_header os junk fl path p :
  sort_and_display os junk fl [path] p = display_one os fl path p.
Proof.
  unfold sort_and_display. cbn [split_paths].
  destruct (is_directory os (junk 0%nat) path); cbn.
  - now destruct (display_one os fl path p).
  - now destruct (display_one os fl path p).
Qed.

Lemma split_paths_cons os junk i path rest regular_files directories :
  split_paths os junk i (path :: rest) regular_files directories
  = if is_directory os (junk i) path then
      if (MAX_ARGS <=? List.length directories)%nat then None
      else split_paths os junk (S i) rest regular_files
                       (directories ++ [path])%list
    else
      if (MAX_ARGS <=? List.length regular_files)%nat then None
      else split_paths os junk (S i) rest (regular_files ++ [path])%list
                       directories.
Proof. reflexivity. Qed.

Lemma is_directory_resolved os junk_mode path :
  resolves os path -> is_directory os junk_mode path = is_dir_path os path.
Proof.
  unfold resolves, is_directory, is_dir_path.
  destruct (os_stat os path); [reflexivity|contradiction].
Qed.

Lemma split_paths_filter os junk paths :
  forall i regular_files directories,
    Forall (resolves os) paths ->
    (List.length regular_files + List.length paths <= MAX_ARGS)%nat ->
    (List.length directories + List.length paths <= MAX_ARGS)%nat ->
    split_paths os junk i paths regular_files directories
    = Some ((regular_files
             ++ filter (fun path => negb (is_dir_path os path)) paths)%list,
            (directories ++ filter (is_dir_path os) paths)%list).
Proof.
  induction paths as [|path rest IH]; intros i regs dirs Hres Hr Hd.
  - simpl. now rewrite !app_nil_r.
  - inversion Hres as [|? ? Hp Hrest]; subst.
    rewrite split_paths_cons, (is_directory_resolved _ _ _ Hp).
    simpl in Hr, Hd. cbn [filter].
    destruct (is_dir_path os path); cbn [negb].
    + destruct (Nat.leb_spec MAX_ARGS (List.length dirs)); [lia|].
      rewrite IH; try assumption; try (rewrite ?length_app; simpl; lia).
      now rewrite <- app_assoc.
    + destruct (Nat.leb_spec MAX_ARGS (List.length regs)); [lia|].
      rewrite IH; try assumption; try (rewrite ?length_app; simpl; lia).
      now rewrite <- app_assoc.
Qed.

(** X17: when [stat] succeeds on every argument (at most 100 of them),
    [sort_and_display] displays the arguments that are not directories
    first, in byte order, then the directories, in byte order; each
    directory is headed by a line with its path exactly when there is more
    than one argument or at least one argument that is not a directory. *)
Theorem files_before_directories os junk fl file_paths p :
  Forall (resolves os) file_paths ->
  (List.length file_paths <= MAX_ARGS)%nat ->
  exists regular_files directories,
    Permutation (filter (fun path => negb (is_dir_path os path)) file_paths)
                regular_files /\
    Permutation (filter (is_dir_path os) file_paths) directories /\
    StronglySorted byte_le regular_files /\
    StronglySorted byte_le directories /\
    sort_and_display os junk fl file_paths p
    = match display_files os fl regular_files p with
      | None => None
      | Some p' =>
          display_directories os fl
            (negb (List.length regular_files =? 0)%nat
             || (1 <? List.length file_paths)%nat)
            directories p'
      end.
Proof.
  intros Hres Hlen.
  exists (fst (qsort compare
                 (filter (fun path => negb (is_dir_path os path)) file_paths))),
         (fst (qsort compare (filter (is_dir_path os) file_paths))).
  split; [apply qsort_perm|]. split; [apply qsort_perm|].
  split; [apply compare_sorted|]. split; [apply compare_sorted|].
  unfold sort_and_display.
  rewrite (split_paths_filter os junk file_paths 0 [] [] Hres)
    by (simpl; exact Hlen).
  reflexivity.
Qed.

Lemma files_before_directories_witness :
  exists regular_files directories,
    Permutation ["a"] regular_files /\
    Permutation ["/home/u"] directories /\
    StronglySorted byte_le regular_files /\
    StronglySorted byte_le directories /\
    sort_and_display Fixture.home_os (fun _ => 0) only_no_option
                     ["/home/u"; "a"] proc0
    = match display_files Fixture.home_os only_no_option regular_files proc0
      with
      | None => None
      | Some p' =>
          display_directories Fixture.home_os only_no_option
            (negb (List.length regular_files =? 0)%nat || (1 <? 2)%nat)
            directories p'
      end.
Proof.
  apply (files_before_directories Fixture.home_os (fun _ => 0) only_no_option
           ["/home/u"; "a"] proc0).
  - repeat constructor; discriminate.
  - vm_compute. lia.
Defined.

(** ** [main] *)

Lemma collect_operands_cons arg rest multiArgs :
  collect_operands (arg :: rest) multiArgs
  = if Ascii.eqb (first_char arg) "-" then Some multiArgs
    else if (List.length multiArgs <? MAX_ARGS)%nat
    then collect_operands rest (multiArgs ++ [arg])%list
    else None.
Proof. reflexivity. Qed.

Lemma collect_operands_some rest :
  forall multiArgs,
    (List.length multiArgs + List.length (leading_operands rest)
     <= MAX_ARGS)%nat ->
    collect_operands rest multiArgs
    = Some (multiArgs ++ leading_operands rest)%list.
Proof.
  induction rest as [|arg rest IH]; intros multiArgs Hlen.
  - simpl. now rewrite app_nil_r.
  - rewrite collect_operands_cons. cbn [leading_operands] in *.
    destruct (Ascii.eqb (first_char arg) "-"); [now rewrite app_nil_r|].
    simpl in Hlen.
    destruct (Nat.ltb_spec (List.length multiArgs) MAX_ARGS); [|lia].
    rewrite IH by (rewrite length_app; simpl; lia).
    now rewrite <- app_assoc.
Qed.

Lemma collect_operands_none rest :
  forall multiArgs,
    (List.length multiArgs <= MAX_ARGS)%nat ->
    (MAX_ARGS < List.length multiArgs + List.length (leading_operands rest))%nat ->
    collect_operands rest multiArgs = None.
Proof.
  induction rest as [|arg rest IH]; intros multiArgs Hle Hgt.
  - simpl in Hgt. lia.
  - rewrite collect_operands_cons. cbn [leading_operands] in *.
    destruct (Ascii.eqb (first_char arg) "-"); [simpl in Hgt; lia|].
    simpl in Hgt.
    destruct (Nat.ltb_spec (List.length multiArgs) MAX_ARGS); [|reflexivity].
    apply IH; rewrite length_app; simpl; lia.
Qed.

Lemma on_directory_status directory routine p st p' :
  on_directory directory routine p = Returns st p' -> st = 0.
Proof.
  unfold on_directory. destruct directory as [d|]; [|discriminate].
  destruct (routine d p); [|discriminate]. now intros [= <- _].
Qed.

Lemma returning_status r st p' : returning r = Returns st p' -> st = 0.
Proof. destruct r; [|discriminate]. now intros [= <- _]. Qed.

Lemma dispatch_status os junk fl directory multiArgs p st p' :
  dispatch os junk fl directory multiArgs p = Returns st p' -> st = 0.
Proof.
  unfold dispatch.
  repeat match goal with
         | |- (if ?b then _ else _) = _ -> _ => destruct b
         end;
    try apply on_directory_status; try apply returning_status;
    now intros [= <- _].
Qed.

Lemma no_option_flag opts :
  is_no_option_enabled (parse_options opts) = negb (Nat.eqb (List.length opts) 0).
Proof. now destruct (parse_options_fields opts) as (_ & H & _). Qed.

(** X18: [main] returns either 0 or 1, and it returns 1 exactly when at
    least one option character was returned and more than 100 operands
    stand before the first argument that starts with a dash; nothing is
    listed then, and the only trace is one line on standard error. *)
Theorem main_exit_status os junk inv p :
  (forall st p', main os junk inv p = Returns st p' -> st = 0 \/ st = 1) /\
  (forall p',
     main os junk inv p = Returns 1 p' <->
     inv_argv inv <> [] /\ inv_opts inv <> [] /\
     (MAX_ARGS < List.length (operands inv))%nat /\
     p' = fprintf_stderr "Too many arguments for option -l"
                          (after_switch inv p)).
Proof.
  unfold main, operands, after_switch.
  destruct (inv_argv inv) as [|arg0 args] eqn:Hargv.
  - split.
    + intros st p' H. left. eapply on_directory_status. exact H.
    + intros p'. split.
      * intros H. apply on_directory_status in H. discriminate.
      * intros (H & _). contradiction.
  - rewrite no_option_flag.
    destruct (inv_opts inv) as [|opt opts] eqn:Hopts; cbn [List.length Nat.eqb negb].
    + match goal with
      | |- context [collect_all ?f ?a ?i ?m] => destruct (collect_all f a i m)
      end.
      * split.
        -- intros st p' H. left. eapply returning_status. exact H.
        -- intros p'. split; [|intros (_ & H & _); contradiction].
           intros H. apply returning_status in H. discriminate.
      * split; [intros st p' H; discriminate H|].
        intros p'. split; [discriminate|intros (_ & H & _); contradiction].
    + set (rest := skipn (inv_optind inv - 1) (arg0 :: args)).
      destruct (Nat.le_gt_cases (List.length (leading_operands rest)) MAX_ARGS)
        as [Hle|Hgt].
      * rewrite (collect_operands_some rest []) by exact Hle. split.
        -- intros st p' H. left. eapply dispatch_status. exact H.
        -- intros p'. split; [|intros (_ & _ & H & _); lia].
           intros H. apply dispatch_status in H. discriminate.
      * rewrite (collect_operands_none rest [])
          by (simpl; unfold MAX_ARGS in *; lia).
        split.
        -- intros st p' [= <- _]. now right.
        -- intros p'. split.
           ++ intros [= <-]. repeat split; try discriminate. exact Hgt.
           ++ intros (_ & _ & _ & ->). reflexivity.
Qed.

(** X19: with [-d] among the options and no operand, [main] reads no
    directory and does not need the working directory: it writes one line
    for [.], plain under [-f] and through the short renderer otherwise, and
    returns 0. *)
Theorem directory_flag_alone os junk inv p :
  inv_argv inv <> [] ->
  letter_in "d" (inv_opts inv) = true ->
  operands inv = [] ->
  main os junk inv p
  = Returns 0
      (if letter_in "f" (inv_opts inv)
       then printf ("." ++ NL) (after_switch inv p)
       else printf NL
              (print_with_color os (parse_options (inv_opts inv)) "."
                                (after_switch inv p))).
Proof.
  unfold main, operands, after_switch. intros Hargv Hd Hops.
  destruct (inv_argv inv) as [|arg0 args]; [contradiction|].
  rewrite no_option_flag.
  destruct (inv_opts inv) as [|opt opts] eqn:Hopts; [discriminate|].
  cbn [List.length Nat.eqb negb].
  rewrite (collect_operands_some _ []) by (rewrite Hops; simpl; lia).
  rewrite Hops. cbn [app]. unfold dispatch.
  destruct (parse_options_fields (opt :: opts))
    as (_ & _ & _ & _ & _ & Hdir & _ & Hns & _).
  rewrite Hdir, Hns, Hd. cbn [List.length Nat.eqb Nat.ltb Nat.leb negb].
  rewrite !andb_false_r. cbn [andb].
  now destruct (letter_in "f" (opt :: opts)).
Qed.

Lemma main_exit_status_witness :
  main Fixture.home_os (fun _ => 0)
       (mk_Invocation "myls" ["-d"] ["d"%char] 2 None) proc0
  = Returns 0 (mk_Proc (blue "." ++ "   " ++ NL) [] 0) /\
  (0 = 0 \/ 0 = 1).
Proof.
  split; [reflexivity|].
  apply (proj1 (main_exit_status Fixture.home_os (fun _ => 0)
                  (mk_Invocation "myls" ["-d"] ["d"%char] 2 None) proc0)
               0 (mk_Proc (blue "." ++ "   " ++ NL) [] 0)).
  reflexivity.
Defined.

Lemma directory_flag_alone_witness :
  main Fixture.home_os (fun _ => 0)
       (mk_Invocation "myls" ["-d"; "-f"] ["d"; "f"]%char 3 None) proc0
  = Returns 0 (mk_Proc ("." ++ NL) [] 0).
Proof.
  apply (directory_flag_alone Fixture.home_os (fun _ => 0)
           (mk_Invocation "myls" ["-d"; "-f"] ["d"; "f"]%char 3 None) proc0).
  - discriminate.
  - reflexivity.
  - reflexivity.
Defined.

Lemma collect_all_S fuel argv i multiArgs :
  collect_all (S fuel) argv i multiArgs
  = match nth_error argv i with
    | None => Some multiArgs
    | Some arg =>
        collect_all fuel argv ((i + 1) mod 256)
          (if (List.length multiArgs <? MAX_ARGS)%nat
           then (multiArgs ++ [arg])%list else multiArgs)
    end.
Proof. reflexivity. Qed.

(** With 256 entries or more before the NULL, the one-byte index never
    leaves them: however many turns the loop is given, it has not ended. *)
Lemma collect_all_never_ends argv :
  (256 <= List.length argv)%nat ->
  forall fuel i multiArgs,
    (i < 256)%nat -> collect_all fuel argv i multiArgs = None.
Proof.
  intros Hlen. induction fuel as [|fuel IH]; intros i multiArgs Hi;
    [reflexivity|].
  rewrite collect_all_S.
  destruct (nth_error argv i) as [arg|] eqn:Hn.
  - apply IH. apply Nat.mod_upper_bound. discriminate.
  - apply nth_error_None in Hn. lia.
Qed.

(** With the NULL within reach of the index, the loop ends with the
    arguments it went through, the first 100 of them. *)
Lemma collect_all_ends rest :
  forall pre multiArgs fuel,
    (List.length pre + List.length rest <= 255)%nat ->
    (List.length rest < fuel)%nat ->
    (List.length multiArgs <= MAX_ARGS)%nat ->
    collect_all fuel (pre ++ rest) (List.length pre) multiArgs
    = Some (firstn MAX_ARGS (multiArgs ++ rest)).
Proof.
  induction rest as [|arg rest IH]; intros pre multiArgs fuel Hlen Hfuel Hacc;
    (destruct fuel as [|fuel]; [simpl in Hfuel; lia|]); rewrite collect_all_S.
  - rewrite !app_nil_r.
    rewrite (proj2 (nth_error_None pre (List.length pre))) by lia.
    now rewrite firstn_all2 by exact Hacc.
  - rewrite nth_error_app2, Nat.sub_diag by lia. cbn [nth_error].
    cbn [List.length] in Hlen, Hfuel.
    rewrite Nat.mod_small by lia.
    replace (pre ++ arg :: rest)%list with ((pre ++ [arg]) ++ rest)%list
      by (now rewrite <- app_assoc).
    replace (List.length pre + 1)%nat with (List.length (pre ++ [arg]))
      by (rewrite length_app; reflexivity).
    destruct (Nat.ltb_spec (List.length multiArgs) MAX_ARGS) as [Hlt|Hge].
    + rewrite IH; try (rewrite ?length_app; cbn [List.length]; lia).
      now rewrite <- app_assoc.
    + rewrite IH; try (rewrite ?length_app; cbn [List.length]; lia).
      rewrite !firstn_app.
      replace (MAX_ARGS - List.length multiArgs)%nat with 0%nat by lia.
      reflexivity.
Qed.

(** X20: when no option character is returned, the loop that collects the
    arguments stores the first 100 and lets the others drop without a
    word, so that [main] behaves as if only the first 100 had been given.
    With 255 arguments or more the one-byte index wraps around before it
    reaches the NULL that ends [argv]: the loop has not ended after any
    number of turns, and [main] never returns. *)
Theorem plain_arguments os junk inv p :
  inv_argv inv <> [] ->
  inv_opts inv = [] ->
  ((254 < List.length (inv_argv inv))%nat ->
   (forall fuel,
      collect_all fuel (inv_argv0 inv :: inv_argv inv) 1 [] = None) /\
   main os junk inv p = Never_returns) /\
  ((List.length (inv_argv inv) <= 254)%nat ->
   (forall fuel,
      (List.length (inv_argv inv) < fuel)%nat ->
      collect_all fuel (inv_argv0 inv :: inv_argv inv) 1 []
      = Some (firstn MAX_ARGS (inv_argv inv))) /\
   main os junk inv p
   = main os junk (with_argv inv (firstn MAX_ARGS (inv_argv inv))) p /\
   main os junk inv p
   = returning (sort_and_display os junk only_no_option
                  (firstn MAX_ARGS (inv_argv inv)) p)).
Proof.
  intros Hargv Hopts.
  assert (forall argv fuel,
            (List.length argv <= 254)%nat -> (List.length argv < fuel)%nat ->
            collect_all fuel (inv_argv0 inv :: argv) 1 []
            = Some (firstn MAX_ARGS argv)) as Hends.
  { intros argv fuel Hlen Hfuel.
    exact (collect_all_ends argv [inv_argv0 inv] [] fuel
             ltac:(cbn [List.length]; lia) Hfuel
             ltac:(cbn [List.length]; lia)). }
  assert (forall argv,
            argv <> [] -> (List.length argv <= 254)%nat ->
            main os junk (with_argv inv argv) p
            = returning (sort_and_display os junk only_no_option
                           (firstn MAX_ARGS argv) p)) as Hmain.
  { intros argv Hne Hlen. unfold main, with_argv.
    cbn [inv_argv inv_opts inv_argv0 inv_cwd]. rewrite Hopts.
    destruct argv as [|arg0 args]; [contradiction|].
    change (parse_options []) with no_flags.
    cbn [fold_left is_no_option_enabled no_flags negb].
    rewrite (Hends (arg0 :: args) 256%nat Hlen) by lia. reflexivity. }
  assert (main os junk inv p = main os junk (with_argv inv (inv_argv inv)) p)
    as Hsame by (destruct inv; reflexivity).
  split.
  - intros Hlen.
    assert (forall fuel,
              collect_all fuel (inv_argv0 inv :: inv_argv inv) 1 [] = None)
      as Hloop.
    { intros fuel. apply collect_all_never_ends; cbn [List.length]; lia. }
    split; [exact Hloop|].
    unfold main. rewrite Hopts.
    destruct (inv_argv inv) as [|arg0 args]; [contradiction|].
    change (parse_options []) with no_flags.
    cbn [fold_left is_no_option_enabled no_flags negb].
    now rewrite Hloop.
  - intros Hlen. split; [intros fuel Hfuel; now apply Hends|].
    rewrite Hsame, (Hmain (inv_argv inv) Hargv Hlen).
    split; [|reflexivity].
    rewrite Hmain.
    + now rewrite firstn_firstn, Nat.min_id.
    + destruct (inv_argv inv); [contradiction|discriminate].
    + pose proof (firstn_le_length MAX_ARGS (inv_argv inv)) as Hf.
      unfold MAX_ARGS in *. lia.
Qed.

Lemma plain_arguments_witness :
  main Fixture.home_os (fun _ => 0)
       (mk_Invocation "myls" ["/home/u"] [] 1 None) proc0
  = returning (sort_and_display Fixture.home_os (fun _ => 0) only_no_option
                 ["/home/u"] proc0).
Proof.
  destruct (plain_arguments Fixture.home_os (fun _ => 0)
              (mk_Invocation "myls" ["/home/u"] [] 1 None) proc0)
    as [_ Hshort].
  - discriminate.
  - reflexivity.
  - apply Hshort. simpl. lia.
Defined.

Lemma letter_in_unknown c opts :
  c <> "?"%char -> Forall (fun opt => opt = "?"%char) opts ->
  letter_in c opts = false.
Proof.
  intros Hc Hall. induction Hall as [|opt rest -> _ IH]; [reflexivity|].
  unfold letter_in in *. cbn [existsb]. rewrite IH.
  destruct (Ascii.eqb_spec c "?"); [contradiction|reflexivity].
Qed.

Lemma switch_unknown argv0 opts :
  Forall (fun opt => opt = "?"%char) opts ->
  forall p,
    let q := fold_left (fun p opt => switch_output argv0 opt p) opts p in
    p_stdout q = p_stdout p /\
    List.length (p_stderr q) = (List.length (p_stderr p) + List.length opts)%nat /\
    p_open_dirs q = p_open_dirs p.
Proof.
  induction 1 as [|opt rest -> _ IH]; intros p.
  - simpl. repeat split. lia.
  - cbn [fold_left]. specialize (IH (switch_output argv0 "?" p)).
    cbv zeta in *. destruct IH as (H1 & H2 & H3).
    rewrite H1, H2, H3. cbn. rewrite length_app. cbn.
    repeat split. lia.
Qed.

(** X21: when every option character returned is the question mark of an
    unknown option, [main] lists nothing, with or without operands:
    standard output is untouched, standard error receives one usage line
    per unknown option, no directory is opened, and the status is 0. *)
Theorem unknown_options_list_nothing os junk inv p :
  inv_argv inv <> [] ->
  inv_opts inv <> [] ->
  Forall (fun opt => opt = "?"%char) (inv_opts inv) ->
  (List.length (operands inv) <= MAX_ARGS)%nat ->
  exists p',
    main os junk inv p = Returns 0 p' /\
    p_stdout p' = p_stdout p /\
    List.length (p_stderr p')
    = (List.length (p_stderr p) + List.length (inv_opts inv))%nat /\
    p_open_dirs p' = p_open_dirs p.
Proof.
  intros Hargv Hopts Hall Hlen.
  exists (after_switch inv p).
  split; [|exact (switch_unknown (inv_argv0 inv) (inv_opts inv) Hall p)].
  unfold main, operands, after_switch in *.
  destruct (inv_argv inv) as [|arg0 args]; [contradiction|].
  rewrite no_option_flag.
  destruct (inv_opts inv) as [|opt opts] eqn:Ho; [contradiction|].
  cbn [List.length Nat.eqb negb].
  rewrite (collect_operands_some _ []) by exact Hlen. cbn [app].
  unfold dispatch.
  destruct (parse_options_fields (opt :: opts))
    as (F1 & _ & F3 & F4 & F5 & F6 & F7 & F8 & F9 & F10).
  rewrite F1, F3, F4, F5, F6, F7, F8, F9, F10.
  rewrite !(letter_in_unknown _ (opt :: opts)) by (discriminate || exact Hall).
  cbn [orb]. rewrite !andb_false_r. cbn [andb]. reflexivity.
Qed.

Lemma unknown_options_list_nothing_witness :
  exists p',
    main Fixture.home_os (fun _ => 0)
         (mk_Invocation "myls" ["-x"; "/home/u"] ["?"%char] 2 (Some "/home/u"))
         proc0 = Returns 0 p' /\
    p_stdout p' = "" /\
    List.length (p_stderr p') = 1%nat /\
    p_open_dirs p' = 0%nat.
Proof.
  apply (unknown_options_list_nothing Fixture.home_os (fun _ => 0)
           (mk_Invocation "myls" ["-x"; "/home/u"] ["?"%char] 2
                          (Some "/home/u")) proc0).
  - discriminate.
  - discriminate.
  - repeat constructor.
  - vm_compute. lia.
Defined.

Lemma type_char_letters_witness :
  type_char (S_IFDIR + 493) = "d" /\ type_char (S_IFLNK + 511) = "l".
Proof.
  destruct (type_char_letters (S_IFDIR + 493)) as (_ & [_ Hd] & _).
  destruct (type_char_letters (S_IFLNK + 511)) as (_ & _ & _ & _ & [_ Hl] & _).
  split; [apply Hd|apply Hl]; reflexivity.
Defined.

(** ** Consistency of the comparators *)

Lemma tolower_idempotent (c : ascii) : tolower (tolower c) = tolower c.
Proof. destruct c as [[] [] [] [] [] [] [] []]; reflexivity. Qed.

Lemma lower_copy_idempotent (s : string) :
  lower_copy (lower_copy s) = lower_copy s.
Proof.
  induction s as [|c r IH]; simpl; [reflexivity|].
  now rewrite tolower_idempotent, IH.
Qed.

(** X22: the case-insensitive comparator does not see the case of ASCII
    letters: folding either name to lower case beforehand changes nothing,
    and two names with the same lower-case form compare equal. *)
Theorem case_insensitive_ignores_case (a b : string) :
  compare_case_insensitive (lower_copy a) b = compare_case_insensitive a b /\
  compare_case_insensitive a (lower_copy b) = compare_case_insensitive a b /\
  (lower_copy a = lower_copy b -> fst (compare_case_insensitive a b) = 0).
Proof.
  unfold compare_case_insensitive. rewrite !lower_copy_idempotent.
  repeat split. intros ->. apply strcmp_refl.
Qed.

Lemma case_insensitive_ignores_case_witness :
  fst (compare_case_insensitive "README" "ReadMe") = 0.
Proof.
  destruct (case_insensitive_ignores_case "README" "ReadMe") as (_ & _ & H).
  apply H. reflexivity.
Defined.

(** X23: [compare] and [compare_case_insensitive] are consistent
    comparators: a name compares equal to itself, swapping the arguments
    flips the sign of the answer, and "not after" is transitive.  The two
    time comparators flip their sign under a swap as well, as long as
    [stat] resolves both names. *)
Theorem comparators_consistent os (a b c : string) :
  (fst (compare a a) = 0 /\
   fst (compare b a) = - fst (compare a b) /\
   (cmp_le compare a b -> cmp_le compare b c -> cmp_le compare a c)) /\
  (fst (compare_case_insensitive a a) = 0 /\
   fst (compare_case_insensitive b a) = - fst (compare_case_insensitive a b) /\
   (cmp_le compare_case_insensitive a b ->
    cmp_le compare_case_insensitive b c ->
    cmp_le compare_case_insensitive a c)) /\
  (resolves os a -> resolves os b ->
   fst (compare_by_access_time os b a) = - fst (compare_by_access_time os a b) /\
   fst (compare_by_ctime os b a) = - fst (compare_by_ctime os a b)).
Proof.
  split; [|split].
  - unfold cmp_le, compare. simpl. split; [apply strcmp_refl|].
    split; [apply strcmp_antisym|apply strcmp_trans].
  - unfold cmp_le, compare_case_insensitive. simpl.
    split; [apply strcmp_refl|].
    split; [apply strcmp_antisym|apply strcmp_trans].
  - unfold resolves, compare_by_access_time, compare_by_ctime.
    intros Ha Hb.
    destruct (os_stat os a) as [sa|]; [|contradiction].
    destruct (os_stat os b) as [sb|]; [|contradiction].
    split.
    + destruct (Z.ltb_spec (st_atime sa) (st_atime sb));
      destruct (Z.gtb_spec (st_atime sa) (st_atime sb));
      destruct (Z.ltb_spec (st_atime sb) (st_atime sa));
      destruct (Z.gtb_spec (st_atime sb) (st_atime sa));
      simpl; try lia. apply strcmp_antisym.
    + destruct (Z.ltb_spec (st_ctime sa) (st_ctime sb));
      destruct (Z.gtb_spec (st_ctime sa) (st_ctime sb));
      destruct (Z.ltb_spec (st_ctime sb) (st_ctime sa));
      destruct (Z.gtb_spec (st_ctime sb) (st_ctime sa));
      simpl; lia.
Qed.

Lemma comparators_consistent_witness :
  fst (compare_by_access_time Fixture.home_os "b" "a")
  = - fst (compare_by_access_time Fixture.home_os "a" "b") /\
  cmp_le compare "a" "c".
Proof.
  destruct (comparators_consistent Fixture.home_os "a" "b" "c")
    as ((_ & _ & Htrans) & _ & Htime).
  split.
  - apply Htime; discriminate.
  - apply Htrans; vm_compute; discriminate.
Defined.
